(** * RandomAccess (GUPS), single-CPU core: a shallow embedding of
    [core_single_cpu.c] and the properties of its generator, its table
    updater and its driver. *)

From Stdlib Require Import ZArith Lia Bool List String Floats Permutation.
From stdpp Require Import base option list.

Local Open Scope Z_scope.

(** ** 64-bit words

    [uint64_t] values are integers in [0, 2^64); arithmetic on them wraps. *)

Definition wrap64 (z : Z) : Z := z mod 2 ^ 64.

(** [(int64_t) z] for a 64-bit word [z] (two's complement). *)
Definition to_int64 (z : Z) : Z := if z <? 2 ^ 63 then z else z - 2 ^ 64.

Definition u64 (z : Z) : Prop := 0 <= z < 2 ^ 64.

(** [(x >> i) & 1], as a C truth value. *)
Definition bit_set (x i : Z) : bool := negb (Z.land (Z.shiftr x i) 1 =? 0).

(** ** The sequence generator *)

Definition POLY : Z := 7.
Definition PERIOD : Z := 1317624576693539401.

(** [(ran << 1) ^ ((int64_t) ran < 0 ? POLY : 0)] *)
Definition next_ran (ran : Z) : Z :=
  Z.lxor (wrap64 (Z.shiftl ran 1)) (if to_int64 ran <? 0 then POLY else 0).

(** [while (n < 0) n += PERIOD;]  The loop runs at most
    [-n / PERIOD + 1] times, which is the fuel [add_period] gives it. *)
Fixpoint add_period_loop (fuel : nat) (n : Z) : Z :=
  match fuel with
  | O => n
  | S f => if n <? 0 then add_period_loop f (n + PERIOD) else n
  end.

Definition add_period (n : Z) : Z :=
  add_period_loop (Z.to_nat (- n / PERIOD + 1)) n.

(** [while (n > PERIOD) n -= PERIOD;]  At most [n / PERIOD] rounds. *)
Fixpoint sub_period_loop (fuel : nat) (n : Z) : Z :=
  match fuel with
  | O => n
  | S f => if PERIOD <? n then sub_period_loop f (n - PERIOD) else n
  end.

Definition sub_period (n : Z) : Z :=
  sub_period_loop (Z.to_nat (n / PERIOD)) n.

(** [for (i=0; i<64; i++) { m2[i] = temp; temp = next; temp = next; }]:
    the array [m2] as it is filled, entry 0 first. *)
Fixpoint fill_m2 (count : nat) (temp : Z) : list Z :=
  match count with
  | O => []
  | S c => temp :: fill_m2 c (next_ran (next_ran temp))
  end.

(** [for (i=62; i>=0; i--) if ((n >> i) & 1) break;] started with
    [count = i + 1]; the value of [i] after the loop ([-1] when no bit is
    found). *)
Fixpoint top_bit (count : nat) (n : Z) : Z :=
  match count with
  | O => -1
  | S c => if bit_set n (Z.of_nat c) then Z.of_nat c else top_bit c n
  end.

(** One round of [for (j=0; j<64; j++) if ((ran >> j) & 1) temp ^= m2[j];] *)
Definition mat_vec_row (m2 : list Z) (ran temp : Z) (j : nat) : Z :=
  if bit_set ran (Z.of_nat j) then Z.lxor temp (nth j m2 0) else temp.

(** [temp = 0; for (j=0; j<64; j++) if ((ran >> j) & 1) temp ^= m2[j];] *)
Definition mat_vec (m2 : list Z) (ran : Z) : Z :=
  fold_left (mat_vec_row m2 ran) (seq 0 64) 0.

(** [while (i > 0) { ran = m2 * ran; i -= 1;
                     if ((n >> i) & 1) ran = next_ran ran; }] *)
Fixpoint power_loop (i : nat) (m2 : list Z) (n ran : Z) : Z :=
  match i with
  | O => ran
  | S i' =>
      let ran := mat_vec m2 ran in
      let ran := if bit_set n (Z.of_nat i') then next_ran ran else ran in
      power_loop i' m2 n ran
  end.

Definition HPCC_starts (n : Z) : Z :=
  let n := sub_period (add_period n) in
  if n =? 0 then 1
  else
    let m2 := fill_m2 64 1 in
    let i := top_bit 63 n in
    power_loop (Z.to_nat i) m2 n 2.

(** The scalar generator: the state after [k] transitions from state 1. *)
Definition ran_seq (k : nat) : Z := Nat.iter k next_ran 1.

(** ** The table updater *)

(** The macro [NUPDATE], [(4 * TableSize)] in [uint64_t] arithmetic. *)
Definition NUPDATE (TableSize : Z) : Z := wrap64 (4 * TableSize).

(** [ran & (TableSize-1)] *)
Definition table_index (TableSize ran : Z) : Z :=
  Z.land ran (wrap64 (TableSize - 1)).

(** [Table[ran & (TableSize-1)] ^= ran;]  The table is the list of its
    words; [None] is an access outside of it. *)
Definition xor_update (TableSize : Z) (Table : list Z) (ran : Z)
  : option (list Z) :=
  let k := Z.to_nat (table_index TableSize ran) in
  old ← Table !! k;
  Some (<[k := Z.lxor old ran]> Table).

(** [for (i = first; i < first + count; i++) body], with the loop index
    passed to the body and failure of the body ending the loop. *)
Fixpoint for_loop {St : Type} (count first : nat)
    (body : nat -> St -> option St) (s : St) : option St :=
  match count with
  | O => Some s
  | S c => s' ← body first s; for_loop c (S first) body s'
  end.

(** [for (j=0; j<128; j++) ran[j] = HPCC_starts ((NUPDATE/128) * j);]
    The product is a [uint64_t], converted to the [int64_t] parameter. *)
Definition init_streams (TableSize : Z) : list Z :=
  map (fun j : nat =>
         HPCC_starts
           (to_int64 (wrap64 (NUPDATE TableSize / 128 * Z.of_nat j))))
      (seq 0 128).

(** The body of the inner loop, on the pair of the array [ran] and the
    table: [ran[j] = next; Table[ran[j] & (TableSize-1)] ^= ran[j];] *)
Definition stream_step (TableSize : Z) (j : nat) (st : list Z * list Z)
  : option (list Z * list Z) :=
  r ← st.1 !! j;
  let r' := next_ran r in
  Table' ← xor_update TableSize st.2 r';
  Some (<[j := r']> st.1, Table').

Definition RandomAccessUpdate (TableSize : Z) (Table : list Z)
  : option (list Z) :=
  let ran := init_streams TableSize in
  st ← for_loop (Z.to_nat (NUPDATE TableSize / 128)) 0
         (fun _ => for_loop 128 0 (stream_step TableSize)) (ran, Table);
  Some st.2.

(** The scalar loop given in the comment of [RandomAccessUpdate], which is
    also the verification loop of [main]:
    [ran = 1; for (i=0; i<NUPDATE; i++) { ran = next; table[..] ^= ran; }] *)
Definition scalar_step (TableSize : Z) (st : Z * list Z)
  : option (Z * list Z) :=
  let ran := next_ran st.1 in
  Table' ← xor_update TableSize st.2 ran;
  Some (ran, Table').

Definition scalar_update (TableSize : Z) (Table : list Z)
  : option (list Z) :=
  st ← for_loop (Z.to_nat (NUPDATE TableSize)) 0
         (fun _ => scalar_step TableSize) (1, Table);
  Some st.2.

(** ** The driver *)

(** [double] is IEEE 754 binary64, with the operations of its
    specification: 53 bits of precision, exponents below 1024, rounding to
    nearest even. *)
Definition double : Type := spec_float.

Definition d_mul : double -> double -> double := SFmul 53 1024.
Definition d_div : double -> double -> double := SFdiv 53 1024.
Definition d_sub : double -> double -> double := SFsub 53 1024.

(** The conversion of a [uint64_t] to [double]. *)
Definition double_of_u64 (z : Z) : double := binary_normalize 53 1024 z 0 false.

(** The literals [0.0], [0.5], [1.0], [-1.0], [0.01] and [1e-9], the last
    two rounded to binary64 as a C compiler does. *)
Definition d_zero : double := S754_zero false.
Definition d_half : double := S754_finite false 4503599627370496 (-53).
Definition d_one : double := S754_finite false 4503599627370496 (-52).
Definition d_minus_one : double := S754_finite true 4503599627370496 (-52).
Definition d_hundredth : double := S754_finite false 5764607523034235 (-59).
Definition d_billionth : double := S754_finite false 4835703278458517 (-82).

(** The exact value of a finite [double] times [2 ^ 1074], an integer. *)
Definition scaled_value (x : double) : Z :=
  match x with
  | S754_finite s m e => (if s then -1 else 1) * Z.pos m * 2 ^ (e + 1074)
  | _ => 0
  end.

(** [for (totalMem *= 0.5, logTableSize = 0, TableSize = 1;
         totalMem >= 1.0;
         totalMem *= 0.5, logTableSize++, TableSize <<= 1) ;]
    from the test on: [None] when the fuel runs out before the test fails. *)
Fixpoint size_loop (fuel : nat) (totalMem : double)
    (logTableSize TableSize : Z) : option (Z * Z) :=
  match fuel with
  | O => None
  | S f =>
      if SFleb d_one totalMem
      then size_loop f (d_mul totalMem d_half)
             (wrap64 (logTableSize + 1)) (wrap64 (Z.shiftl TableSize 1))
      else Some (logTableSize, TableSize)
  end.

(** [totalMem = 1UL<<32; totalMem /= sizeof(uint64_t);] and the loop
    ([unsigned long] has 64 bits, [sizeof(uint64_t)] is 8). *)
Definition table_size (fuel : nat) : option (Z * Z) :=
  let totalMem := double_of_u64 (wrap64 (Z.shiftl 1 32)) in
  let totalMem := d_div totalMem (double_of_u64 8) in
  size_loop fuel (d_mul totalMem d_half) 0 1.

(** [for (i=0; i<TableSize; i++) Table[i] = i;] *)
Definition store (Table : list Z) (i : nat) (v : Z) : option (list Z) :=
  if decide (i < length Table)%nat then Some (<[i := v]> Table) else None.

Definition init_table (TableSize : Z) (Table : list Z) : option (list Z) :=
  for_loop (Z.to_nat TableSize) 0
    (fun i Table => store Table i (Z.of_nat i)) Table.

(** A division that is undefined on a zero divisor. *)
Definition checked_div (x y : double) : option double :=
  match y with
  | S754_zero _ => None
  | _ => Some (d_div x y)
  end.

(** [(realtime > 0.0 ? 1.0 / realtime : -1.0)] *)
Definition update_rate (realtime : double) : option double :=
  if SFltb d_zero realtime then checked_div d_one realtime
  else Some d_minus_one.

(** [double GUPs = (realtime > 0.0 ? 1.0 / realtime : -1.0);
     GUPs *= 1e-9*NUPDATE;] *)
Definition GUPs (realtime : double) (TableSize : Z) : option double :=
  rate ← update_rate realtime;
  Some (d_mul rate (d_mul d_billionth (double_of_u64 (NUPDATE TableSize)))).

(** [if (Table[i] != i) temp++;] *)
Definition count_step (Table : list Z) (i : nat) (temp : Z) : option Z :=
  w ← Table !! i;
  Some (if w =? Z.of_nat i then temp else wrap64 (temp + 1)).

(** [temp = 0; for (i=0; i<TableSize; i++) if (Table[i] != i) temp++;] *)
Definition count_errors (TableSize : Z) (Table : list Z) : option Z :=
  for_loop (Z.to_nat TableSize) 0 (count_step Table) 0.

(** [temp <= 0.01*TableSize] *)
Definition within_tolerance (temp TableSize : Z) : bool :=
  SFleb (double_of_u64 temp) (d_mul d_hundredth (double_of_u64 TableSize)).

(** [(temp <= 0.01*TableSize) ? "passed" : "failed"] *)
Definition verdict (temp TableSize : Z) : string :=
  if within_tolerance temp TableSize then "passed"%string else "failed"%string.

(** What [main] prints: the arguments of its five [printf] calls. *)
Record report : Type := Report {
  out_logTableSize : Z;
  out_TableSize : Z;
  out_NUPDATE : Z;
  out_realtime : double;
  out_GUPs : double;
  out_errors : Z;
  out_verdict : string
}.

(** [main] from the initialisation of the table to the last [printf], on
    the allocated block and the two readings of the clock. *)
Definition benchmark (logTableSize TableSize : Z) (block : list Z)
    (t_begin t_end : double) : option report :=
  Table ← init_table TableSize block;
  Table ← RandomAccessUpdate TableSize Table;
  let realtime := d_sub t_end t_begin in
  gups ← GUPs realtime TableSize;
  Table ← scalar_update TableSize Table;
  temp ← count_errors TableSize Table;
  Some (Report logTableSize TableSize (NUPDATE TableSize) realtime gups
          temp (verdict temp TableSize)).

(** How a run of [main] ends: [assert] aborts it, it leaves defined
    behaviour (an access outside the table, a division by zero, a loop out
    of fuel), or it returns a status after printing a report. *)
Inductive outcome : Type :=
  | Aborted
  | Undefined
  | Exited (status : Z) (out : report).

(** [main] with the table size already derived.  [Table] is the result of
    [malloc]: [None] for [NULL], else the contents of the fresh block. *)
Definition main_sized (sizes : option (Z * Z)) (Table : option (nat -> Z))
    (t_begin t_end : double) : outcome :=
  match sizes with
  | None => Undefined
  | Some (logTableSize, TableSize) =>
      match Table with
      | None => Aborted
      | Some contents =>
          let block := map contents (seq 0 (Z.to_nat TableSize)) in
          match benchmark logTableSize TableSize block t_begin t_end with
          | None => Undefined
          | Some out => Exited 0 out
          end
      end
  end.

(** [main].  The sizing loop is given fuel for 1025 tests; it needs 30
    ([table_size_fuel]). *)
Definition main (Table : option (nat -> Z)) (t_begin t_end : double)
  : outcome :=
  main_sized (table_size 1025) Table t_begin t_end.

(** The scalar loop cut to [n] rounds:
    [ran = 1; for (i=0; i<n; i++) { ran = next; table[..] ^= ran; }] *)
Definition scalar_steps (n : nat) (TableSize : Z) (Table : list Z)
  : option (list Z) :=
  st ← for_loop n 0 (fun _ => scalar_step TableSize) (1, Table);
  Some st.2.

(** A [double] that is neither a NaN nor an infinity. *)
Definition d_is_finite (x : double) : bool :=
  match x with
  | S754_zero _ | S754_finite _ _ _ => true
  | _ => false
  end.

(** ** Definitions used in the proofs *)

(** Equalities between exclusive ors of the same words, bit by bit. *)
Ltac xor_bits :=
  apply Z.bits_inj'; intros; rewrite ?Z.lxor_spec;
  repeat match goal with
         | |- context [Z.testbit ?a ?b] => destruct (Z.testbit a b)
         end; reflexivity.

(** A map on words that commutes with exclusive or. *)
Definition xor_linear (f : Z -> Z) : Prop :=
  forall a b, u64 a -> u64 b -> f (Z.lxor a b) = Z.lxor (f a) (f b).

(** [Table[ran & (TableSize-1)] ^= ran] as a total function on lists. *)
Definition xor_at (TableSize : Z) (Table : list Z) (ran : Z) : list Z :=
  alter (fun old => Z.lxor old ran)
        (Z.to_nat (table_index TableSize ran)) Table.

(** A sequence of updates, applied in order. *)
Definition apply_updates (TableSize : Z) (rans : list Z) (Table : list Z)
  : list Z :=
  fold_left (xor_at TableSize) rans Table.

(** One round of the scalar loop and one round of the 128 streams, as total
    functions on the loop state. *)
Definition scalar_round (TableSize : Z) (st : Z * list Z) : Z * list Z :=
  (next_ran st.1, xor_at TableSize st.2 (next_ran st.1)).

Definition stream_round (TableSize : Z) (st : list Z * list Z)
  : list Z * list Z :=
  (map next_ran st.1, apply_updates TableSize (map next_ran st.1) st.2).

(** The words the scalar loop folds into the table in its first [n] rounds,
    and those the streams fold in, each stream [m] transitions after the
    previous one, in [rounds] rounds. *)
Definition scalar_updates (n : nat) : list Z :=
  map (fun t => ran_seq (S t)) (seq 0 n).

Definition stream_updates (m rounds : nat) : list Z :=
  flat_map (fun t => map (fun j => ran_seq (S t + m * j)) (seq 0 128))
           (seq 0 rounds).

(** Two [double]s with the same bits (a single NaN). *)
Definition double_eqb (x y : double) : bool :=
  match x, y with
  | S754_zero s, S754_zero s' => Bool.eqb s s'
  | S754_infinity s, S754_infinity s' => Bool.eqb s s'
  | S754_nan, S754_nan => true
  | S754_finite s m e, S754_finite s' m' e' =>
      Bool.eqb s s' && Pos.eqb m m' && Z.eqb e e'
  | _, _ => false
  end.

(** The table after [for (i=0; i<TableSize; i++) Table[i] = i;]. *)
Definition identity_table (TableSize : Z) : list Z :=
  map Z.of_nat (seq 0 (Z.to_nat TableSize)).

(** The number of words of a table that differ from their index, the first
    word having index [i]. *)
Fixpoint mismatches_from (i : nat) (Table : list Z) : nat :=
  match Table with
  | [] => 0
  | w :: rest =>
      ((if Z.eqb w (Z.of_nat i) then 0 else 1) + mismatches_from (S i) rest)%nat
  end.

Definition mismatches (Table : list Z) : nat := mismatches_from 0 Table.


(** * Properties of the generator *)

(** ** Bits of 64-bit words *)

Lemma bit_set_testbit x i : bit_set x i = Z.testbit x i.
Proof.
  unfold bit_set. rewrite (Z.testbit_odd x i).
  change 1 with (Z.ones 1). rewrite Z.land_ones by lia.
  change (2 ^ 1) with 2. rewrite <- Z.bit0_mod, Z.bit0_odd.
  now destruct (Z.odd (Z.shiftr x i)).
Qed.

Lemma wrap64_bits z i :
  0 <= i -> Z.testbit (wrap64 z) i = Z.testbit z i && (i <? 64).
Proof.
  intros Hi. unfold wrap64. destruct (Z.ltb_spec i 64).
  - rewrite Z.mod_pow2_bits_low, andb_true_r by lia. reflexivity.
  - rewrite Z.mod_pow2_bits_high, andb_false_r by lia. reflexivity.
Qed.

Lemma u64_wrap z : u64 z <-> wrap64 z = z.
Proof.
  unfold u64, wrap64. split.
  - apply Z.mod_small.
  - intros <-. apply Z.mod_pos_bound. lia.
Qed.

Lemma u64_wrap64 z : u64 (wrap64 z).
Proof. unfold u64, wrap64. apply Z.mod_pos_bound. lia. Qed.

Lemma testbit_above z k i :
  0 <= z < 2 ^ k -> 0 <= k <= i -> Z.testbit z i = false.
Proof.
  intros Hz Hk. rewrite <- (Z.mod_small z (2 ^ k)) by lia.
  apply Z.mod_pow2_bits_high. lia.
Qed.

Lemma u64_lxor a b : u64 a -> u64 b -> u64 (Z.lxor a b).
Proof.
  intros Ha Hb. apply u64_wrap. apply Z.bits_inj'. intros i Hi.
  rewrite wrap64_bits, Z.lxor_spec by lia.
  destruct (Z.ltb_spec i 64); [apply andb_true_r |].
  rewrite (testbit_above a 64 i), (testbit_above b 64 i) by (unfold u64 in *; lia).
  reflexivity.
Qed.

Lemma sign_bit ran : u64 ran -> (to_int64 ran <? 0) = Z.testbit ran 63.
Proof.
  unfold to_int64, u64. intros H.
  destruct (Z.ltb_spec ran (2 ^ 63)) as [Hlt | Hge].
  - rewrite (testbit_above ran 63 63) by lia. lia.
  - assert (Hq : ran / 2 ^ 63 = 1).
    { symmetry. apply (Z.div_unique ran (2 ^ 63) 1 (ran - 2 ^ 63)); lia. }
    assert (Ht : Z.testbit ran 63 = true).
    { apply Z.testbit_true; [lia |]. rewrite Hq. reflexivity. }
    rewrite Ht. lia.
Qed.

Lemma next_ran_bits ran i :
  u64 ran -> 0 <= i ->
  Z.testbit (next_ran ran) i =
  xorb ((i <? 64) && Z.testbit ran (i - 1))
       (Z.testbit ran 63 && Z.testbit POLY i).
Proof.
  intros Hr Hi. unfold next_ran.
  rewrite sign_bit, Z.lxor_spec, wrap64_bits, Z.shiftl_spec by assumption.
  rewrite andb_comm. f_equal.
  destruct (Z.testbit ran 63); [reflexivity | apply Z.testbit_0_l].
Qed.

Lemma u64_next_ran ran : u64 (next_ran ran).
Proof.
  unfold next_ran. apply u64_lxor; [apply u64_wrap64 |].
  destruct (to_int64 ran <? 0); unfold u64, POLY; lia.
Qed.

Lemma u64_ran_seq k : u64 (ran_seq k).
Proof.
  destruct k as [| k]; [unfold ran_seq, u64; simpl; lia |].
  apply u64_next_ran.
Qed.

(** ** Linearity over GF(2) *)

Lemma next_ran_linear : xor_linear next_ran.
Proof.
  intros a b Ha Hb. apply Z.bits_inj'. intros i Hi.
  rewrite Z.lxor_spec, !next_ran_bits, !Z.lxor_spec
    by auto using u64_lxor.
  destruct (i <? 64), (Z.testbit POLY i);
    repeat match goal with
           | |- context [Z.testbit ?a ?b] => destruct (Z.testbit a b)
           end; reflexivity.
Qed.

Lemma xor_linear_0 f : xor_linear f -> f 0 = 0.
Proof.
  intros Hf.
  assert (H0 : u64 0) by (unfold u64; lia).
  pose proof (Hf 0 0 H0 H0) as H. rewrite Z.lxor_nilpotent in H.
  rewrite Z.lxor_nilpotent in H. exact H.
Qed.

Lemma split_top_bit v k :
  0 <= k -> 2 ^ k <= v < 2 ^ (k + 1) -> v = Z.lxor (v - 2 ^ k) (2 ^ k).
Proof.
  intros Hk Hv. rewrite Z.pow_add_r in Hv by lia. change (2 ^ 1) with 2 in Hv.
  rewrite <- Z.add_nocarry_lxor; [lia |].
  apply Z.bits_inj'. intros i Hi.
  rewrite Z.land_spec, Z.pow2_bits_eqb, Z.testbit_0_l by lia.
  destruct (Z.eqb_spec k i) as [<- |]; [| apply andb_false_r].
  rewrite (testbit_above (v - 2 ^ k) k k) by lia. reflexivity.
Qed.

(** Two linear maps that agree on the 64 basis words agree on every word. *)
Lemma xor_linear_ext f g :
  xor_linear f -> xor_linear g ->
  (forall j : nat, (j < 64)%nat -> f (2 ^ Z.of_nat j) = g (2 ^ Z.of_nat j)) ->
  forall v, u64 v -> f v = g v.
Proof.
  intros Hf Hg Hbasis.
  assert (Hk : forall k : nat, (k <= 64)%nat ->
                 forall v, 0 <= v < 2 ^ Z.of_nat k -> f v = g v).
  { induction k as [| k IH]; intros Hle v Hv.
    - change (2 ^ Z.of_nat 0) with 1 in Hv.
      replace v with 0 by lia.
      rewrite (xor_linear_0 f), (xor_linear_0 g) by assumption. reflexivity.
    - rewrite Nat2Z.inj_succ, <- Z.add_1_r in Hv.
      destruct (Z.lt_ge_cases v (2 ^ Z.of_nat k)) as [Hlo | Hhi].
      + apply IH; lia.
      + assert (Hpow : 2 ^ Z.of_nat k < 2 ^ 64)
          by (apply Z.pow_lt_mono_r; lia).
        rewrite (split_top_bit v (Z.of_nat k)) by lia.
        rewrite Z.pow_add_r in Hv by lia. change (2 ^ 1) with 2 in Hv.
        rewrite Hf, Hg by (unfold u64; lia).
        rewrite (IH ltac:(lia) (v - 2 ^ Z.of_nat k)) by lia.
        rewrite Hbasis by lia. reflexivity. }
  intros v Hv. apply (Hk 64%nat); [lia | exact Hv].
Qed.

(** ** The matrix-vector product of [HPCC_starts] *)

Section MatVec.
Variable m2 : list Z.

Lemma fold_row_lxor a b js t1 t2 :
  fold_left (mat_vec_row m2 (Z.lxor a b)) js (Z.lxor t1 t2) =
  Z.lxor (fold_left (mat_vec_row m2 a) js t1) (fold_left (mat_vec_row m2 b) js t2).
Proof.
  revert t1 t2. induction js as [| j js IH]; intros t1 t2; [reflexivity |].
  cbn [fold_left]. rewrite <- IH. f_equal. unfold mat_vec_row.
  rewrite !bit_set_testbit, Z.lxor_spec.
  destruct (Z.testbit a (Z.of_nat j)), (Z.testbit b (Z.of_nat j));
    cbn [xorb]; try reflexivity; xor_bits.
Qed.

Lemma mat_vec_lxor a b :
  mat_vec m2 (Z.lxor a b) = Z.lxor (mat_vec m2 a) (mat_vec m2 b).
Proof.
  unfold mat_vec.
  rewrite <- fold_row_lxor. reflexivity.
Qed.

Hypothesis m2_words : Forall u64 m2.

Lemma u64_nth j : u64 (nth j m2 0).
Proof.
  destruct (Nat.lt_ge_cases j (length m2)) as [Hj | Hj].
  - rewrite Forall_forall in m2_words. apply m2_words.
    apply list_elem_of_In. now apply nth_In.
  - rewrite nth_overflow by assumption. unfold u64. lia.
Qed.

Lemma u64_fold_row ran js t : u64 t -> u64 (fold_left (mat_vec_row m2 ran) js t).
Proof.
  revert t. induction js as [| j js IH]; intros t Ht; [exact Ht |].
  cbn [fold_left]. apply IH. unfold mat_vec_row.
  destruct (bit_set ran (Z.of_nat j)); [| exact Ht].
  apply u64_lxor; [exact Ht | apply u64_nth].
Qed.

Lemma u64_mat_vec ran : u64 (mat_vec m2 ran).
Proof. apply u64_fold_row. unfold u64. lia. Qed.
End MatVec.

Lemma fill_m2_words count : forall temp, u64 temp -> Forall u64 (fill_m2 count temp).
Proof.
  induction count as [| c IH]; intros temp Ht; cbn [fill_m2].
  - constructor.
  - constructor; [exact Ht |]. apply IH, u64_next_ran.
Qed.

(** Row [j] of [m2] is the state after [2 j] transitions: the product with
    [m2] squares in GF(2)[x] modulo the polynomial of the generator. *)
Lemma mat_vec_next_ran v :
  u64 v ->
  mat_vec (fill_m2 64 1) (next_ran v) =
  next_ran (next_ran (mat_vec (fill_m2 64 1) v)).
Proof.
  assert (Hm2 : Forall u64 (fill_m2 64 1))
    by (apply fill_m2_words; unfold u64; lia).
  apply (xor_linear_ext
           (fun v => mat_vec (fill_m2 64 1) (next_ran v))
           (fun v => next_ran (next_ran (mat_vec (fill_m2 64 1) v)))).
  - intros a b Ha Hb. cbv beta.
    rewrite next_ran_linear, mat_vec_lxor by assumption. reflexivity.
  - intros a b Ha Hb. cbv beta.
    rewrite mat_vec_lxor.
    rewrite next_ran_linear by (apply u64_mat_vec; assumption).
    rewrite next_ran_linear by apply u64_next_ran. reflexivity.
  - intros j Hj.
    assert (Hall :
      forallb (fun j : nat =>
                 mat_vec (fill_m2 64 1) (next_ran (2 ^ Z.of_nat j)) =?
                 next_ran (next_ran (mat_vec (fill_m2 64 1) (2 ^ Z.of_nat j))))
              (seq 0 64) = true) by (vm_compute; reflexivity).
    rewrite forallb_forall in Hall.
    apply Z.eqb_eq, Hall, in_seq. lia.
Qed.

Lemma mat_vec_ran_seq e :
  mat_vec (fill_m2 64 1) (ran_seq e) = ran_seq (2 * e).
Proof.
  induction e as [| e IH]; [vm_compute; reflexivity |].
  replace (2 * S e)%nat with (S (S (2 * e))) by lia.
  change (ran_seq (S (S (2 * e)))) with (next_ran (next_ran (ran_seq (2 * e)))).
  change (ran_seq (S e)) with (next_ran (ran_seq e)).
  rewrite mat_vec_next_ran by apply u64_ran_seq.
  rewrite IH. reflexivity.
Qed.

(** ** The scan for the top bit and the exponentiation loop *)

Lemma top_bit_log2 count n :
  1 <= n < 2 ^ Z.of_nat count -> top_bit count n = Z.log2 n.
Proof.
  induction count as [| c IH]; intros Hn.
  - change (2 ^ Z.of_nat 0) with 1 in Hn. lia.
  - cbn [top_bit]. rewrite bit_set_testbit.
    rewrite Nat2Z.inj_succ, Z.pow_succ_r in Hn by lia.
    destruct (Z.testbit n (Z.of_nat c)) eqn:Hbit.
    + symmetry. apply Z.log2_unique; [lia |].
      rewrite Z.pow_succ_r by lia. split; [| lia].
      destruct (Z.lt_ge_cases n (2 ^ Z.of_nat c)) as [Hlt | Hge]; [| exact Hge].
      rewrite (testbit_above n (Z.of_nat c) (Z.of_nat c)) in Hbit by lia.
      discriminate.
    + apply IH. split; [lia |].
      destruct (Z.lt_ge_cases n (2 ^ Z.of_nat c)) as [Hlt | Hge]; [exact Hlt |].
      rewrite (split_top_bit n (Z.of_nat c)) in Hbit by (rewrite ?Z.pow_add_r; lia).
      rewrite Z.lxor_spec, Z.pow2_bits_eqb, Z.eqb_refl in Hbit by lia.
      rewrite (testbit_above (n - 2 ^ Z.of_nat c) (Z.of_nat c) (Z.of_nat c)) in Hbit
        by lia.
      discriminate.
Qed.

Lemma shiftr_pred n i :
  0 <= i ->
  Z.shiftr n i = 2 * Z.shiftr n (i + 1) + Z.b2z (Z.testbit n i).
Proof.
  intros Hi. rewrite (Z.div2_odd (Z.shiftr n i)) at 1.
  rewrite Z.div2_spec, Z.shiftr_shiftr, <- Z.testbit_odd by lia.
  reflexivity.
Qed.

Lemma power_loop_ran_seq n : 0 <= n ->
  forall (i : nat) ran,
    ran = ran_seq (Z.to_nat (Z.shiftr n (Z.of_nat i))) ->
    power_loop i (fill_m2 64 1) n ran = ran_seq (Z.to_nat n).
Proof.
  intros Hn. induction i as [| i IH]; intros ran Hran.
  - cbn [power_loop]. rewrite Hran, Z.shiftr_0_r. reflexivity.
  - cbn [power_loop]. apply IH.
    rewrite Hran, mat_vec_ran_seq, bit_set_testbit.
    rewrite (shiftr_pred n (Z.of_nat i)) by lia.
    replace (Z.of_nat i + 1) with (Z.of_nat (S i)) by lia.
    assert (Hs : 0 <= Z.shiftr n (Z.of_nat (S i)))
      by (apply Z.shiftr_nonneg; exact Hn).
    destruct (Z.testbit n (Z.of_nat i)); cbn [Z.b2z].
    + replace (Z.to_nat (2 * Z.shiftr n (Z.of_nat (S i)) + 1))
        with (S (2 * Z.to_nat (Z.shiftr n (Z.of_nat (S i))))) by lia.
      reflexivity.
    + f_equal. lia.
Qed.

(** ** The two normalisation loops *)

Lemma add_period_eq n :
  add_period n = if n <? 0 then add_period (n + PERIOD) else n.
Proof.
  unfold add_period. destruct (Z.ltb_spec n 0) as [Hneg | Hpos].
  - assert (Hdiv : - (n + PERIOD) / PERIOD = - n / PERIOD - 1).
    { replace (- (n + PERIOD)) with (- n + (-1) * PERIOD) by lia.
      rewrite Z.div_add by (unfold PERIOD; lia). lia. }
    assert (0 <= - n / PERIOD) by (apply Z.div_pos; unfold PERIOD; lia).
    rewrite Hdiv.
    replace (Z.to_nat (- n / PERIOD + 1))
      with (S (Z.to_nat (- n / PERIOD - 1 + 1))) by lia.
    cbn [add_period_loop]. destruct (Z.ltb_spec n 0); [reflexivity | lia].
  - destruct (Z.to_nat (- n / PERIOD + 1)); cbn [add_period_loop];
      [reflexivity |].
    destruct (Z.ltb_spec n 0); [lia | reflexivity].
Qed.

Lemma sub_period_eq n :
  sub_period n = if PERIOD <? n then sub_period (n - PERIOD) else n.
Proof.
  unfold sub_period. destruct (Z.ltb_spec PERIOD n) as [Hgt | Hle].
  - assert (Hdiv : (n - PERIOD) / PERIOD = n / PERIOD - 1).
    { replace (n - PERIOD) with (n + (-1) * PERIOD) by lia.
      rewrite Z.div_add by (unfold PERIOD; lia). lia. }
    assert (1 <= n / PERIOD).
    { apply Z.div_le_lower_bound; unfold PERIOD in *; lia. }
    rewrite Hdiv.
    replace (Z.to_nat (n / PERIOD)) with (S (Z.to_nat (n / PERIOD - 1))) by lia.
    cbn [sub_period_loop]. destruct (Z.ltb_spec PERIOD n); [reflexivity | lia].
  - destruct (Z.to_nat (n / PERIOD)); cbn [sub_period_loop]; [reflexivity |].
    destruct (Z.ltb_spec PERIOD n); [lia | reflexivity].
Qed.

(** ** Jump-ahead equals iteration *)

Lemma HPCC_starts_normal n n' :
  sub_period (add_period n) = sub_period (add_period n') ->
  HPCC_starts n = HPCC_starts n'.
Proof. unfold HPCC_starts. intros ->. reflexivity. Qed.

Lemma HPCC_starts_in_period n :
  1 <= n <= PERIOD -> HPCC_starts n = ran_seq (Z.to_nat n).
Proof.
  intros Hn. unfold HPCC_starts.
  rewrite add_period_eq. destruct (Z.ltb_spec n 0); [lia |].
  rewrite sub_period_eq. destruct (Z.ltb_spec PERIOD n); [lia |].
  destruct (Z.eqb_spec n 0); [lia |]. cbv zeta.
  assert (Hlt : n < 2 ^ Z.of_nat 63) by (unfold PERIOD in Hn; simpl; lia).
  rewrite top_bit_log2 by lia.
  pose proof (Z.log2_spec n ltac:(lia)) as Hlog.
  pose proof (Z.log2_nonneg n) as Hnn.
  apply power_loop_ran_seq; [lia |].
  rewrite Z2Nat.id, Z.shiftr_div_pow2 by assumption.
  rewrite Z.pow_succ_r in Hlog by assumption.
  replace (n / 2 ^ Z.log2 n) with 1; [reflexivity |].
  apply (Z.div_unique n (2 ^ Z.log2 n) 1 (n - 2 ^ Z.log2 n)); lia.
Qed.

Lemma ran_seq_period : ran_seq (Z.to_nat PERIOD) = 1.
Proof.
  rewrite <- HPCC_starts_in_period by (unfold PERIOD; lia).
  vm_compute. reflexivity.
Qed.

Lemma ran_seq_add (a b : nat) :
  ran_seq (a + b) = Nat.iter a next_ran (ran_seq b).
Proof. unfold ran_seq. apply Nat.iter_add. Qed.

Lemma ran_seq_add_periods (c k : nat) :
  ran_seq (k + c * Z.to_nat PERIOD) = ran_seq k.
Proof.
  induction c as [| c IH]; [f_equal; lia |].
  replace (k + S c * Z.to_nat PERIOD)%nat
    with ((k + c * Z.to_nat PERIOD) + Z.to_nat PERIOD)%nat by lia.
  rewrite ran_seq_add, ran_seq_period, <- IH. reflexivity.
Qed.

Lemma sub_period_spec (fuel : nat) : forall n,
  0 <= n -> n / PERIOD <= Z.of_nat fuel ->
  exists c : nat,
    n = sub_period n + Z.of_nat c * PERIOD /\
    0 <= sub_period n <= PERIOD /\ (sub_period n = 0 -> n = 0).
Proof.
  induction fuel as [| fuel IH]; intros n Hn Hfuel;
    rewrite sub_period_eq; destruct (Z.ltb_spec PERIOD n) as [Hgt | Hle];
    try (exists 0%nat; lia).
  - assert (1 <= n / PERIOD)
      by (apply Z.div_le_lower_bound; unfold PERIOD in *; lia).
    lia.
  - assert (Hdiv : (n - PERIOD) / PERIOD = n / PERIOD - 1).
    { replace (n - PERIOD) with (n + (-1) * PERIOD) by lia.
      rewrite Z.div_add by (unfold PERIOD; lia). lia. }
    destruct (IH (n - PERIOD)) as (c & Heq & Hrange & Hzero);
      [unfold PERIOD in *; lia | lia |].
    exists (S c). split; [lia |]. split; [exact Hrange |].
    intros H0. specialize (Hzero H0). unfold PERIOD in *. lia.
Qed.

(** For every non-negative argument the jump-ahead is the state after that
    many transitions. *)
Lemma HPCC_starts_ran_seq n :
  0 <= n -> HPCC_starts n = ran_seq (Z.to_nat n).
Proof.
  intros Hn.
  assert (Hdiv : 0 <= n / PERIOD) by (apply Z.div_pos; unfold PERIOD; lia).
  destruct (sub_period_spec (Z.to_nat (n / PERIOD)) n Hn ltac:(lia))
    as (c & Heq & Hrange & Hzero).
  destruct (Z.eq_dec (sub_period n) 0) as [H0 | Hne].
  - rewrite (Hzero H0). vm_compute. reflexivity.
  - rewrite (HPCC_starts_normal n (sub_period n)).
    + rewrite HPCC_starts_in_period by lia.
      rewrite <- (ran_seq_add_periods c (Z.to_nat (sub_period n))).
      f_equal. apply Nat2Z.inj.
      assert (0 <= PERIOD) by (unfold PERIOD; lia).
      rewrite Nat2Z.inj_add, Nat2Z.inj_mul, !Z2Nat.id by lia.
      lia.
    + rewrite (add_period_eq n), (add_period_eq (sub_period n)).
      destruct (Z.ltb_spec n 0), (Z.ltb_spec (sub_period n) 0); try lia.
      rewrite (sub_period_eq (sub_period n)).
      destruct (Z.ltb_spec PERIOD (sub_period n)); [lia | reflexivity].
Qed.

Lemma next_ran_nonzero v : u64 v -> v <> 0 -> next_ran v <> 0.
Proof.
  intros Hv Hne Hz. apply Hne. apply Z.bits_inj'. intros i Hi.
  rewrite Z.testbit_0_l.
  assert (H63 : Z.testbit v 63 = false).
  { pose proof (next_ran_bits v 0 Hv ltac:(lia)) as H.
    rewrite Hz, Z.testbit_0_l, (Z.testbit_neg_r v (0 - 1)) in H by lia.
    change (Z.testbit POLY 0) with true in H.
    rewrite andb_false_r, andb_true_r, xorb_false_l in H. now symmetry. }
  destruct (Z.lt_ge_cases i 63) as [Hlo | Hhi].
  - pose proof (next_ran_bits v (i + 1) Hv ltac:(lia)) as H.
    rewrite Hz, Z.testbit_0_l, H63 in H.
    replace (i + 1 - 1) with i in H by lia.
    destruct (Z.ltb_spec (i + 1) 64); [| lia].
    rewrite andb_true_l, andb_false_l, xorb_false_r in H. now symmetry.
  - destruct (Z.eq_dec i 63) as [-> | Hne63]; [exact H63 |].
    apply (testbit_above v 64 i); unfold u64 in Hv; lia.
Qed.

Lemma ran_seq_nonzero k : ran_seq k <> 0.
Proof.
  induction k as [| k IH]; [discriminate |].
  apply next_ran_nonzero; [apply u64_ran_seq | exact IH].
Qed.

(** * Properties of the table updater *)

(** ** The index mask *)

Lemma table_index_mod k v :
  0 <= k <= 63 -> table_index (2 ^ k) v = v mod 2 ^ k.
Proof.
  intros Hk. unfold table_index.
  assert (Hpow : 0 < 2 ^ k <= 2 ^ 63)
    by (split; [apply Z.pow_pos_nonneg | apply Z.pow_le_mono_r]; lia).
  unfold wrap64. rewrite Z.mod_small by lia.
  replace (2 ^ k - 1) with (Z.ones k) by (rewrite Z.ones_equiv; lia).
  apply Z.land_ones. lia.
Qed.

Lemma table_index_range k v :
  0 <= k <= 63 -> 0 <= table_index (2 ^ k) v < 2 ^ k.
Proof.
  intros Hk. rewrite table_index_mod by assumption.
  apply Z.mod_pos_bound, Z.pow_pos_nonneg; lia.
Qed.

Lemma land_le_mask v mask : 0 <= mask -> 0 <= Z.land v mask <= mask.
Proof.
  intros Hmask. split; [apply Z.land_nonneg; right; exact Hmask |].
  assert (Hsub : mask - Z.land v mask = Z.ldiff mask (Z.land v mask)).
  { apply Z.sub_nocarry_ldiff. apply Z.bits_inj'. intros i Hi.
    rewrite Z.ldiff_spec, Z.land_spec, Z.testbit_0_l.
    destruct (Z.testbit v i), (Z.testbit mask i); reflexivity. }
  assert (0 <= Z.ldiff mask (Z.land v mask))
    by (apply Z.ldiff_nonneg; left; exact Hmask).
  lia.
Qed.

(** The masked index lies in the table whatever its size, a power of two
    or not. *)
Lemma table_index_bound TableSize v :
  0 < TableSize < 2 ^ 64 -> 0 <= table_index TableSize v < TableSize.
Proof.
  intros HT. unfold table_index, wrap64. rewrite Z.mod_small by lia.
  pose proof (land_le_mask v (TableSize - 1)). lia.
Qed.

Lemma pow2_word k : 0 <= k <= 63 -> 0 < 2 ^ k < 2 ^ 64.
Proof.
  intros Hk. split; [apply Z.pow_pos_nonneg | apply Z.pow_lt_mono_r]; lia.
Qed.

(** ** Updates as total functions *)

Lemma length_xor_at TableSize Table ran :
  length (xor_at TableSize Table ran) = length Table.
Proof. apply length_alter. Qed.

Lemma length_apply_updates TableSize rans : forall Table,
  length (apply_updates TableSize rans Table) = length Table.
Proof.
  unfold apply_updates.
  induction rans as [| r rans IH]; intros Table; [reflexivity |].
  cbn [fold_left]. rewrite IH. apply length_xor_at.
Qed.

Lemma xor_update_total TableSize Table ran :
  0 < TableSize < 2 ^ 64 -> Z.of_nat (length Table) = TableSize ->
  xor_update TableSize Table ran = Some (xor_at TableSize Table ran).
Proof.
  intros HT Hlen. unfold xor_update, xor_at.
  pose proof (table_index_bound TableSize ran HT) as Hidx.
  set (i := Z.to_nat (table_index TableSize ran)).
  assert (Hi : (i < length Table)%nat) by lia.
  destruct (Table !! i) as [old |] eqn:Hold.
  - cbn. f_equal. apply list_eq. intros j.
    rewrite list_lookup_alter.
    destruct (decide (i = j)) as [<- | Hne].
    + rewrite list_lookup_insert_eq, Hold by assumption. reflexivity.
    + rewrite list_lookup_insert_ne by assumption. reflexivity.
  - apply lookup_lt_is_Some in Hi. rewrite Hold in Hi.
    destruct Hi as [? Hi]. discriminate Hi.
Qed.

Lemma xor_at_comm TableSize Table a b :
  xor_at TableSize (xor_at TableSize Table a) b =
  xor_at TableSize (xor_at TableSize Table b) a.
Proof.
  unfold xor_at.
  set (i := Z.to_nat (table_index TableSize a)).
  set (j := Z.to_nat (table_index TableSize b)).
  destruct (decide (j = i)) as [-> | Hne].
  - rewrite !list_alter_alter_eq. apply list_alter_ext; [| reflexivity].
    intros x _. cbn. rewrite !Z.lxor_assoc. f_equal. apply Z.lxor_comm.
  - apply list_alter_alter_ne. exact Hne.
Qed.

Lemma xor_at_twice TableSize Table a :
  xor_at TableSize (xor_at TableSize Table a) a = Table.
Proof.
  unfold xor_at. rewrite list_alter_alter_eq. apply list_alter_id.
  intros x. cbn. rewrite Z.lxor_assoc, Z.lxor_nilpotent. apply Z.lxor_0_r.
Qed.

Lemma apply_updates_app TableSize l1 l2 Table :
  apply_updates TableSize (l1 ++ l2) Table =
  apply_updates TableSize l2 (apply_updates TableSize l1 Table).
Proof. apply fold_left_app. Qed.

(** The order of the updates does not matter. *)
Lemma apply_updates_perm TableSize l1 l2 :
  l1 ≡ₚ l2 ->
  forall Table,
    apply_updates TableSize l1 Table = apply_updates TableSize l2 Table.
Proof.
  induction 1 as [| x l1 l2 _ IH | x y l | l1 l2 l3 _ IH1 _ IH2];
    intros Table.
  - reflexivity.
  - apply IH.
  - cbn [apply_updates fold_left]. rewrite xor_at_comm. reflexivity.
  - rewrite IH1. apply IH2.
Qed.

(** Applying the same updates a second time undoes them. *)
Lemma apply_updates_twice TableSize l : forall Table,
  apply_updates TableSize (l ++ l) Table = Table.
Proof.
  induction l as [| a l IH]; intros Table; [reflexivity |].
  rewrite (apply_updates_perm TableSize ((a :: l) ++ a :: l)
             (a :: a :: l ++ l)).
  - cbn [apply_updates fold_left]. rewrite xor_at_twice. apply IH.
  - cbn [app]. constructor. symmetry. apply Permutation_middle.
Qed.

(** ** Loops whose body cannot fail *)

Lemma for_loop_iter {St : Type} (Inv : St -> Prop)
    (body : nat -> St -> option St) (round : St -> St) :
  (forall i s, Inv s -> body i s = Some (round s)) ->
  (forall s, Inv s -> Inv (round s)) ->
  forall count first s,
    Inv s -> for_loop count first body s = Some (Nat.iter count round s).
Proof.
  intros Hbody Hinv. induction count as [| c IH]; intros first s Hs.
  - reflexivity.
  - cbn [for_loop]. rewrite Hbody by exact Hs. cbn.
    rewrite IH by (apply Hinv; exact Hs).
    rewrite <- Nat.iter_succ_r. reflexivity.
Qed.

Lemma iter_invariant {St : Type} (Inv : St -> Prop) (round : St -> St) :
  (forall s, Inv s -> Inv (round s)) ->
  forall n s, Inv s -> Inv (Nat.iter n round s).
Proof.
  intros Hinv. induction n as [| n IH]; intros s Hs; [exact Hs |].
  rewrite Nat.iter_succ. apply Hinv, IH, Hs.
Qed.

(** ** The scalar loop *)

Lemma scalar_rounds TableSize n Table :
  Nat.iter n (scalar_round TableSize) (1, Table) =
  (ran_seq n, apply_updates TableSize (scalar_updates n) Table).
Proof.
  induction n as [| n IH]; [reflexivity |].
  rewrite Nat.iter_succ, IH. unfold scalar_round. cbn [fst snd].
  unfold scalar_updates. rewrite seq_S, map_app, apply_updates_app.
  reflexivity.
Qed.

Lemma scalar_loop_total TableSize (n : nat) Table :
  0 < TableSize < 2 ^ 64 -> Z.of_nat (length Table) = TableSize ->
  for_loop n 0 (fun _ => scalar_step TableSize) (1, Table) =
  Some (ran_seq n, apply_updates TableSize (scalar_updates n) Table).
Proof.
  intros HT Hlen.
  rewrite (for_loop_iter (fun st => Z.of_nat (length st.2) = TableSize)
             _ (scalar_round TableSize)).
  - rewrite scalar_rounds. reflexivity.
  - intros _ [ran T] HlenT. unfold scalar_step, scalar_round.
    cbn [fst snd] in *.
    rewrite xor_update_total by assumption. reflexivity.
  - intros [ran T] HlenT. unfold scalar_round. cbn [fst snd] in *.
    rewrite length_xor_at. exact HlenT.
  - exact Hlen.
Qed.

Lemma scalar_update_total TableSize Table :
  0 < TableSize < 2 ^ 64 -> Z.of_nat (length Table) = TableSize ->
  scalar_update TableSize Table =
  Some (apply_updates TableSize
          (scalar_updates (Z.to_nat (NUPDATE TableSize))) Table).
Proof.
  intros HT Hlen. unfold scalar_update.
  rewrite scalar_loop_total by assumption. reflexivity.
Qed.

(** ** The interleaved streams *)

Lemma stream_step_total TableSize pre r suf Table :
  0 < TableSize < 2 ^ 64 -> Z.of_nat (length Table) = TableSize ->
  stream_step TableSize (length pre) (pre ++ r :: suf, Table) =
  Some (pre ++ next_ran r :: suf, xor_at TableSize Table (next_ran r)).
Proof.
  intros HT Hlen. unfold stream_step. cbn [fst snd].
  rewrite list_lookup_middle by reflexivity. cbn [mbind option_bind].
  rewrite xor_update_total by assumption. cbn [mbind option_bind].
  rewrite insert_app_r_alt, Nat.sub_diag by lia. reflexivity.
Qed.

Lemma stream_loop TableSize (suf : list Z) : forall pre Table,
  0 < TableSize < 2 ^ 64 -> Z.of_nat (length Table) = TableSize ->
  for_loop (length suf) (length pre) (stream_step TableSize)
           (pre ++ suf, Table) =
  Some (pre ++ map next_ran suf,
        apply_updates TableSize (map next_ran suf) Table).
Proof.
  induction suf as [| r suf IH]; intros pre Table HT Hlen.
  - reflexivity.
  - cbn [for_loop length].
    rewrite stream_step_total by assumption. cbn [mbind option_bind].
    replace (S (length pre)) with (length (pre ++ [next_ran r]))
      by (rewrite length_app; cbn; lia).
    replace (pre ++ next_ran r :: suf) with ((pre ++ [next_ran r]) ++ suf)
      by (rewrite <- app_assoc; reflexivity).
    rewrite IH by (rewrite ?length_xor_at; assumption).
    rewrite <- app_assoc. reflexivity.
Qed.

Lemma stream_round_total TableSize ran Table :
  0 < TableSize < 2 ^ 64 -> Z.of_nat (length Table) = TableSize ->
  length ran = 128%nat ->
  for_loop 128 0 (stream_step TableSize) (ran, Table) =
  Some (stream_round TableSize (ran, Table)).
Proof.
  intros HT Hlen Hran. rewrite <- Hran.
  apply (stream_loop TableSize ran [] Table HT Hlen).
Qed.

Lemma flat_map_map {A B C : Type} (f : B -> list C) (g : A -> B) l :
  flat_map f (map g l) = flat_map (fun x => f (g x)) l.
Proof.
  induction l as [| x l IH]; [reflexivity |]. cbn. rewrite IH. reflexivity.
Qed.

Lemma map_of_flat_map {A B C : Type} (g : B -> C) (f : A -> list B) l :
  map g (flat_map f l) = flat_map (fun x => map g (f x)) l.
Proof.
  induction l as [| x l IH]; [reflexivity |].
  cbn. rewrite map_app, IH. reflexivity.
Qed.

Lemma stream_rounds TableSize rounds ran Table :
  Nat.iter rounds (stream_round TableSize) (ran, Table) =
  (map (Nat.iter rounds next_ran) ran,
   apply_updates TableSize
     (flat_map (fun t => map (Nat.iter (S t) next_ran) ran) (seq 0 rounds))
     Table).
Proof.
  induction rounds as [| n IH].
  - cbn. rewrite map_id. reflexivity.
  - rewrite Nat.iter_succ, IH. unfold stream_round. cbn [fst snd].
    rewrite seq_S, flat_map_app, apply_updates_app, map_map.
    cbn [flat_map Nat.add]. rewrite app_nil_r. reflexivity.
Qed.

(** ** The streams cover the scalar sequence *)

Lemma NUPDATE_streams k :
  7 <= k <= 63 ->
  exists M, 0 <= M /\ NUPDATE (2 ^ k) = 128 * M /\ 128 * M <= 2 ^ 63.
Proof.
  intros Hk. unfold NUPDATE, wrap64.
  destruct (Z.le_gt_cases k 61) as [Hlo | Hhi].
  - exists (2 ^ (k - 5)).
    assert (Hpos : 0 < 2 ^ (k - 5)) by (apply Z.pow_pos_nonneg; lia).
    assert (Heq : 4 * 2 ^ k = 128 * 2 ^ (k - 5)).
    { replace k with (7 + (k - 7)) at 1 by lia.
      replace (k - 5) with (2 + (k - 7)) by lia.
      rewrite !Z.pow_add_r by lia. lia. }
    assert (Hle : 4 * 2 ^ k <= 2 ^ 63).
    { replace (4 * 2 ^ k) with (2 ^ (k + 2))
        by (rewrite Z.pow_add_r by lia; lia).
      apply Z.pow_le_mono_r; lia. }
    rewrite Z.mod_small by lia. lia.
  - exists 0. split; [lia |]. split; [| lia].
    replace (4 * 2 ^ k) with (2 ^ (k - 62) * 2 ^ 64).
    + rewrite Z.mod_mul by lia. reflexivity.
    + replace k with ((k - 62) + 62) at 2 by lia.
      rewrite Z.pow_add_r by lia. lia.
Qed.

Lemma init_streams_ran_seq TableSize :
  NUPDATE TableSize <= 2 ^ 63 ->
  init_streams TableSize =
  map (fun j => ran_seq (Z.to_nat (NUPDATE TableSize / 128) * j))
      (seq 0 128).
Proof.
  intros Hle. unfold init_streams. apply map_ext_in.
  intros j Hj. apply in_seq in Hj.
  assert (HN : 0 <= NUPDATE TableSize) by apply u64_wrap64.
  pose proof (Z.div_pos (NUPDATE TableSize) 128 HN ltac:(lia)) as HM.
  pose proof (Z.mul_div_le (NUPDATE TableSize) 128 ltac:(lia)) as Hfloor.
  set (M := NUPDATE TableSize / 128) in *.
  assert (Hprod : 0 <= M * Z.of_nat j < 2 ^ 63) by nia.
  unfold wrap64. rewrite Z.mod_small by lia.
  unfold to_int64. destruct (Z.ltb_spec (M * Z.of_nat j) (2 ^ 63)); [| lia].
  rewrite HPCC_starts_ran_seq by lia.
  f_equal. rewrite Z2Nat.inj_mul, Nat2Z.id by lia. reflexivity.
Qed.

Lemma seq_offset a n : seq a n = map (fun t => t + a)%nat (seq 0 n).
Proof.
  revert a. induction n as [| n IH]; intros a; [reflexivity |].
  cbn [seq map]. f_equal. rewrite <- !seq_shift, (IH a), !map_map.
  apply map_ext. intros t. lia.
Qed.

Lemma seq_blocks m c :
  seq 0 (c * m) =
  flat_map (fun j => map (fun t => t + m * j)%nat (seq 0 m)) (seq 0 c).
Proof.
  induction c as [| c IH]; [reflexivity |].
  rewrite seq_S, flat_map_app, <- IH. cbn [flat_map]. rewrite app_nil_r.
  replace (S c * m)%nat with (c * m + m)%nat by lia.
  rewrite seq_app. f_equal. cbn [Nat.add].
  rewrite (seq_offset (c * m)). apply map_ext. intros t. lia.
Qed.

Lemma flat_map_cons_perm {A B : Type} (g : A -> B) (h : A -> list B) l :
  flat_map (fun x => g x :: h x) l ≡ₚ map g l ++ flat_map h l.
Proof.
  induction l as [| x l IH]; [reflexivity |].
  cbn [flat_map map app]. constructor.
  rewrite IH. apply Permutation_app_swap_app.
Qed.

(** Reading a table of values by rows or by columns gives the same values. *)
Lemma flat_map_transpose {A B C : Type} (f : A -> B -> C) ts js :
  flat_map (fun t => map (fun j => f t j) js) ts ≡ₚ
  flat_map (fun j => map (fun t => f t j) ts) js.
Proof.
  induction ts as [| t ts IH].
  - cbn [flat_map map]. induction js as [| j js IHj]; [reflexivity | exact IHj].
  - cbn [flat_map map]. rewrite IH. symmetry. apply flat_map_cons_perm.
Qed.

Lemma interleave_perm m c :
  flat_map (fun t => map (fun j => ran_seq (S t + m * j)) (seq 0 c))
           (seq 0 m)
  ≡ₚ map (fun t => ran_seq (S t)) (seq 0 (c * m)).
Proof.
  rewrite seq_blocks, map_of_flat_map.
  etransitivity; [apply flat_map_transpose |].
  apply Permutation_refl'. apply flat_map_ext. intros j.
  rewrite map_map. reflexivity.
Qed.

Lemma stream_updates_perm m : stream_updates m m ≡ₚ scalar_updates (128 * m).
Proof. exact (interleave_perm m 128). Qed.

(** The streams apply the first [128 * (NUPDATE / 128)] updates of the
    scalar sequence, whatever the size of the table. *)
Lemma RandomAccessUpdate_rounds TableSize Table :
  0 < TableSize < 2 ^ 64 -> Z.of_nat (length Table) = TableSize ->
  NUPDATE TableSize <= 2 ^ 63 ->
  RandomAccessUpdate TableSize Table =
  Some (apply_updates TableSize
          (scalar_updates (128 * Z.to_nat (NUPDATE TableSize / 128)))
          Table).
Proof.
  intros HT Hlen HN.
  unfold RandomAccessUpdate. cbv zeta.
  rewrite (for_loop_iter
             (fun st => length st.1 = 128%nat /\
                        Z.of_nat (length st.2) = TableSize)
             _ (stream_round TableSize)).
  - cbn [mbind option_bind]. rewrite stream_rounds. cbn [snd].
    f_equal. rewrite init_streams_ran_seq by assumption.
    set (m := Z.to_nat (NUPDATE TableSize / 128)).
    rewrite <- (apply_updates_perm TableSize _ _ (stream_updates_perm m)).
    f_equal. unfold stream_updates. apply flat_map_ext. intros t.
    rewrite map_map. apply map_ext. intros j.
    rewrite ran_seq_add. reflexivity.
  - intros _ [ran T] [Hran HlenT]. cbn [fst snd] in *.
    apply stream_round_total; assumption.
  - intros [ran T] [Hran HlenT]. unfold stream_round. cbn [fst snd] in *.
    rewrite length_map, length_apply_updates. split; assumption.
  - cbn [fst snd]. split; [| exact Hlen].
    unfold init_streams. rewrite length_map, length_seq. reflexivity.
Qed.

(** The streams leave the table as the scalar loop does. *)
Lemma RandomAccessUpdate_updates k Table :
  7 <= k <= 63 -> Z.of_nat (length Table) = 2 ^ k ->
  RandomAccessUpdate (2 ^ k) Table =
  Some (apply_updates (2 ^ k)
          (scalar_updates (Z.to_nat (NUPDATE (2 ^ k)))) Table).
Proof.
  intros Hk Hlen.
  destruct (NUPDATE_streams k Hk) as (M & HM & HN & Hle).
  replace (Z.to_nat (NUPDATE (2 ^ k)))
    with (128 * Z.to_nat (NUPDATE (2 ^ k) / 128))%nat.
  - apply RandomAccessUpdate_rounds; [apply pow2_word; lia | exact Hlen | lia].
  - rewrite HN.
    replace (128 * M / 128) with M by (rewrite Z.mul_comm, Z.div_mul; lia).
    lia.
Qed.

(** * Properties of the driver *)

(** ** Conversions and comparisons of [double]s *)

Lemma double_eqb_eq x y : double_eqb x y = true -> x = y.
Proof.
  destruct x as [s | s | | s m e], y as [s' | s' | | s' m' e'];
    cbn; try discriminate; try reflexivity.
  - intros H%Bool.eqb_prop. congruence.
  - intros H%Bool.eqb_prop. congruence.
  - rewrite !andb_true_iff. intros [[Hs%Bool.eqb_prop Hm%Pos.eqb_eq] He%Z.eqb_eq].
    congruence.
Qed.

Lemma digits2_pos_shift p n :
  digits2_pos (Pos.iter xO p n) = (digits2_pos p + n)%positive.
Proof.
  induction n as [| n IH] using Pos.peano_ind.
  - cbn. lia.
  - rewrite Pos.iter_succ. cbn [digits2_pos]. rewrite IH. lia.
Qed.

Lemma Zpos_shift p n : Z.pos (Pos.iter xO p n) = Z.pos p * 2 ^ Z.pos n.
Proof.
  induction n as [| n IH] using Pos.peano_ind.
  - cbn. lia.
  - rewrite Pos.iter_succ, Pos2Z.inj_succ, Z.pow_succ_r by lia.
    rewrite Pos2Z.inj_xO, IH. lia.
Qed.

Lemma round_aux_exact m e :
  Z.pos (digits2_pos m) = 53 -> -1074 <= e <= 971 ->
  binary_round_aux 53 1024 false (Z.pos m) e loc_Exact = S754_finite false m e.
Proof.
  intros Hd He.
  assert (Hshift : fexp 53 1024 (Z.pos (digits2_pos m) + e) - e = 0).
  { unfold fexp, emin. lia. }
  unfold binary_round_aux, shr_fexp. cbn [Zdigits2 shr_record_of_loc].
  rewrite Hshift. cbn [shr shr_m loc_of_shr_record round_nearest_even Zdigits2 shr_record_of_loc].
  rewrite Hshift. cbn [shr shr_m].
  destruct (Z.leb_spec e (1024 - 53)); [reflexivity | lia].
Qed.

Lemma double_of_u64_exact p :
  Z.pos (digits2_pos p) <= 53 ->
  exists m,
    double_of_u64 (Z.pos p) = S754_finite false m (Z.pos (digits2_pos p) - 53) /\
    Z.pos m = Z.pos p * 2 ^ (53 - Z.pos (digits2_pos p)).
Proof.
  intros Hd. unfold double_of_u64, binary_normalize, binary_round, shl_align.
  assert (Hf : fexp 53 1024 (Z.pos (digits2_pos p) + 0) = Z.pos (digits2_pos p) - 53).
  { unfold fexp, emin. lia. }
  rewrite Hf.
  destruct (Z.pos (digits2_pos p) - 53 - 0) as [| q | q] eqn:Hq; [| lia |].
  - exists p. rewrite round_aux_exact by lia.
    split; [f_equal; lia |].
    replace (53 - Z.pos (digits2_pos p)) with 0 by lia. lia.
  - exists (Pos.iter xO p q). rewrite round_aux_exact.
    + split; [reflexivity |]. rewrite Zpos_shift. f_equal. f_equal. lia.
    + rewrite digits2_pos_shift. lia.
    + lia.
Qed.

Lemma digits2_pos_bounds p :
  2 ^ (Z.pos (digits2_pos p) - 1) <= Z.pos p < 2 ^ Z.pos (digits2_pos p).
Proof.
  induction p as [p IH | p IH |]; cbn [digits2_pos].
  - rewrite Pos2Z.inj_succ, Z.pow_succ_r by lia.
    replace (Z.succ (Z.pos (digits2_pos p)) - 1)
      with (Z.succ (Z.pos (digits2_pos p) - 1)) by lia.
    rewrite Z.pow_succ_r by lia. lia.
  - rewrite Pos2Z.inj_succ, Z.pow_succ_r by lia.
    replace (Z.succ (Z.pos (digits2_pos p)) - 1)
      with (Z.succ (Z.pos (digits2_pos p) - 1)) by lia.
    rewrite Z.pow_succ_r by lia. lia.
  - cbn. lia.
Qed.

(** [0.01 * TableSize] for a table of [2 ^ k] words. *)
Lemma tolerance_bound k :
  0 <= k <= 63 ->
  d_mul d_hundredth (double_of_u64 (2 ^ k)) =
  S754_finite false 5764607523034235 (k - 59).
Proof.
  intros Hk.
  assert (Hall :
    forallb (fun j : nat =>
               double_eqb
                 (d_mul d_hundredth (double_of_u64 (2 ^ Z.of_nat j)))
                 (S754_finite false 5764607523034235 (Z.of_nat j - 59)))
            (seq 0 64) = true) by (vm_compute; reflexivity).
  rewrite forallb_forall in Hall.
  specialize (Hall (Z.to_nat k)). rewrite Z2Nat.id in Hall by lia.
  apply double_eqb_eq, Hall, in_seq. lia.
Qed.

Lemma finite_leb m e m' e' :
  SFleb (S754_finite false m e) (S754_finite false m' e') =
  match e ?= e' with
  | Lt => true
  | Gt => false
  | Eq => Z.pos m <=? Z.pos m'
  end.
Proof.
  unfold SFleb, SFcompare. destruct (e ?= e'); reflexivity.
Qed.

(** [100 * 0.01] exceeds 1 by [12 * 2 ^ -59]: too little to matter for a
    count that is a multiple of [2 ^ -52] of the table size. *)
Lemma hundredth_threshold (P K u M : Z) :
  K * u = 2 ^ 59 -> 128 <= u -> M = P * u ->
  (M <=? 5764607523034235) = (100 * P <=? K).
Proof.
  intros Hu Hu7 HM. change (2 ^ 59) with 576460752303423488 in Hu.
  destruct (Z.leb_spec M 5764607523034235) as [Hle | Hgt];
    symmetry; [apply Z.leb_le | apply Z.leb_gt].
  - apply Z.nlt_ge. intros Hlt.
    assert (0 <= (100 * P - K - 1) * u)
      by (apply Z.mul_nonneg_nonneg; lia).
    lia.
  - apply Z.nle_gt. intros Hle.
    assert (0 <= (K - 100 * P) * u) by (apply Z.mul_nonneg_nonneg; lia).
    lia.
Qed.

(** The comparison in binary64 decides [temp <= TableSize / 100] exactly. *)
Lemma within_tolerance_spec k temp :
  0 <= k <= 52 -> 0 <= temp <= 2 ^ k ->
  within_tolerance temp (2 ^ k) = (100 * temp <=? 2 ^ k).
Proof.
  intros Hk Htemp. unfold within_tolerance.
  rewrite tolerance_bound by lia.
  assert (Hpow : 0 < 2 ^ k) by (apply Z.pow_pos_nonneg; lia).
  destruct temp as [| p | p]; [| | lia].
  - replace (100 * 0 <=? 2 ^ k) with true by (symmetry; apply Z.leb_le; lia).
    reflexivity.
  - pose proof (digits2_pos_bounds p) as Hd.
    assert (Hdk : Z.pos (digits2_pos p) - 1 <= k).
    { apply (Z.pow_le_mono_r_iff 2); lia. }
    destruct (double_of_u64_exact p ltac:(lia)) as (m & -> & Hm).
    rewrite finite_leb.
    assert (Hd0 : 0 < Z.pos (digits2_pos p)) by lia.
    generalize dependent (Z.pos (digits2_pos p)). intros d Hd Hdk Hm Hd0.
    destruct (Z.compare_spec (d - 53) (k - 59)) as [He | He | He].
    + rewrite <- (hundredth_threshold (Z.pos p) (2 ^ k) (2 ^ (53 - d)) (Z.pos m)).
      * reflexivity.
      * rewrite <- Z.pow_add_r by lia. f_equal. lia.
      * change 128 with (2 ^ 7). apply Z.pow_le_mono_r; lia.
      * exact Hm.
    + symmetry. apply Z.leb_le.
      assert (2 ^ d <= 2 ^ (k - 7)) by (apply Z.pow_le_mono_r; lia).
      assert (0 < 2 ^ d) by (apply Z.pow_pos_nonneg; lia).
      assert (2 ^ k = 128 * 2 ^ (k - 7)).
      { replace k with (7 + (k - 7)) at 1 by lia.
        rewrite Z.pow_add_r by lia. reflexivity. }
      lia.
    + symmetry. apply Z.leb_gt.
      destruct (Z.le_gt_cases 6 k) as [Hk6 | Hk6].
      * assert (2 ^ (k - 6) <= 2 ^ (d - 1)) by (apply Z.pow_le_mono_r; lia).
        assert (0 < 2 ^ (k - 6)) by (apply Z.pow_pos_nonneg; lia).
        assert (2 ^ k = 64 * 2 ^ (k - 6)).
        { replace k with (6 + (k - 6)) at 1 by lia.
          rewrite Z.pow_add_r by lia. reflexivity. }
        lia.
      * assert (2 ^ k <= 2 ^ 5) by (apply Z.pow_le_mono_r; lia).
        assert (2 ^ 5 = 32) by reflexivity. lia.
Qed.

(** ** The initialisation and the error count *)

Lemma store_middle pre w suf v :
  store (pre ++ w :: suf) (length pre) v = Some (pre ++ v :: suf).
Proof.
  unfold store. destruct (decide (length pre < length (pre ++ w :: suf))%nat)
    as [_ | Hge].
  - rewrite insert_app_r_alt, Nat.sub_diag by lia. reflexivity.
  - exfalso. apply Hge. rewrite length_app. cbn [length]. lia.
Qed.

Lemma init_loop (suf : list Z) : forall pre,
  for_loop (length suf) (length pre)
    (fun i Table => store Table i (Z.of_nat i)) (pre ++ suf) =
  Some (pre ++ map Z.of_nat (seq (length pre) (length suf))).
Proof.
  induction suf as [| w suf IH]; intros pre; [reflexivity |].
  cbn [for_loop length]. rewrite store_middle. cbn [mbind option_bind].
  replace (S (length pre)) with (length (pre ++ [Z.of_nat (length pre)]))
    by (rewrite length_app; cbn [length]; lia).
  replace (pre ++ Z.of_nat (length pre) :: suf)
    with ((pre ++ [Z.of_nat (length pre)]) ++ suf)
    by (rewrite <- app_assoc; reflexivity).
  rewrite IH, <- app_assoc. rewrite length_app. cbn [length seq map app].
  rewrite Nat.add_1_r. reflexivity.
Qed.

Lemma init_table_total TableSize (block : list Z) :
  length block = Z.to_nat TableSize ->
  init_table TableSize block = Some (identity_table TableSize).
Proof.
  intros Hlen. unfold init_table, identity_table. rewrite <- Hlen.
  apply (init_loop block []).
Qed.

Lemma length_identity_table TableSize :
  length (identity_table TableSize) = Z.to_nat TableSize.
Proof. unfold identity_table. rewrite length_map, length_seq. reflexivity. Qed.

Lemma mismatches_from_identity n : forall i,
  mismatches_from i (map Z.of_nat (seq i n)) = 0%nat.
Proof.
  induction n as [| n IH]; intros i; [reflexivity |].
  cbn [seq map mismatches_from]. rewrite Z.eqb_refl, IH. reflexivity.
Qed.

Lemma mismatches_from_le Table : forall i,
  (mismatches_from i Table <= length Table)%nat.
Proof.
  induction Table as [| w Table IH]; intros i; [reflexivity |].
  cbn [mismatches_from length]. specialize (IH (S i)).
  destruct (w =? Z.of_nat i); lia.
Qed.

Lemma count_loop Table (suf : list Z) : forall pre temp,
  Table = pre ++ suf ->
  0 <= temp -> temp + Z.of_nat (length suf) < 2 ^ 64 ->
  for_loop (length suf) (length pre) (count_step Table) temp =
  Some (temp + Z.of_nat (mismatches_from (length pre) suf)).
Proof.
  induction suf as [| w suf IH]; intros pre temp HT Htemp Hbound.
  - cbn [for_loop length mismatches_from]. f_equal. lia.
  - assert (Hstep : count_step Table (length pre) temp =
                    Some (if w =? Z.of_nat (length pre) then temp
                          else temp + 1)).
    { unfold count_step. rewrite HT, list_lookup_middle by reflexivity.
      cbn [mbind option_bind]. cbn [length] in Hbound.
      unfold wrap64. rewrite Z.mod_small by lia. reflexivity. }
    cbn [for_loop length mismatches_from] in *.
    rewrite Hstep. cbn [mbind option_bind].
    replace (S (length pre)) with (length (pre ++ [w]))
      by (rewrite length_app; cbn [length]; lia).
    rewrite IH.
    + f_equal. destruct (w =? Z.of_nat (length pre)); lia.
    + rewrite HT, <- app_assoc. reflexivity.
    + destruct (w =? Z.of_nat (length pre)); lia.
    + destruct (w =? Z.of_nat (length pre)); lia.
Qed.

(** The loop counts the words that differ from their index. *)
Lemma count_errors_mismatches TableSize Table :
  Z.of_nat (length Table) = TableSize -> TableSize < 2 ^ 64 ->
  count_errors TableSize Table = Some (Z.of_nat (mismatches Table)).
Proof.
  intros Hlen Hlt. unfold count_errors, mismatches.
  replace (Z.to_nat TableSize) with (length Table) by lia.
  pose proof (count_loop Table Table [] 0 eq_refl ltac:(lia) ltac:(lia)) as H.
  cbn [length] in H. rewrite H. reflexivity.
Qed.

(** ** Verification *)

Lemma replay_restores k Table :
  7 <= k <= 63 -> Z.of_nat (length Table) = 2 ^ k ->
  exists updated,
    RandomAccessUpdate (2 ^ k) Table = Some updated /\
    Z.of_nat (length updated) = 2 ^ k /\
    scalar_update (2 ^ k) updated = Some Table.
Proof.
  intros Hk Hlen.
  exists (apply_updates (2 ^ k)
            (scalar_updates (Z.to_nat (NUPDATE (2 ^ k)))) Table).
  split; [apply RandomAccessUpdate_updates; assumption |].
  assert (Hlen' : Z.of_nat (length (apply_updates (2 ^ k)
            (scalar_updates (Z.to_nat (NUPDATE (2 ^ k)))) Table)) = 2 ^ k)
    by (rewrite length_apply_updates; exact Hlen).
  split; [exact Hlen' |].
  rewrite scalar_update_total by (assumption || apply pow2_word; lia).
  rewrite <- apply_updates_app, apply_updates_twice. reflexivity.
Qed.

Lemma within_tolerance_zero k :
  0 <= k <= 63 -> within_tolerance 0 (2 ^ k) = true.
Proof.
  intros Hk. unfold within_tolerance. rewrite tolerance_bound by assumption.
  reflexivity.
Qed.

(** ** The size of the table *)

Lemma size_loop_fuel fuel : forall extra totalMem logTableSize TableSize r,
  size_loop fuel totalMem logTableSize TableSize = Some r ->
  size_loop (fuel + extra) totalMem logTableSize TableSize = Some r.
Proof.
  induction fuel as [| fuel IH]; intros extra x l t r H; [discriminate |].
  cbn [size_loop Nat.add] in *.
  destruct (SFleb d_one x); [apply IH |]; exact H.
Qed.

Lemma table_size_fuel (fuel : nat) :
  (30 <= fuel)%nat -> table_size fuel = Some (29, 2 ^ 29).
Proof.
  intros Hfuel. replace fuel with (30 + (fuel - 30))%nat by lia.
  unfold table_size. apply size_loop_fuel. vm_compute. reflexivity.
Qed.

(** ** The reported rate *)

Lemma not_positive realtime :
  SFleb realtime d_zero = true -> SFltb d_zero realtime = false.
Proof.
  destruct realtime as [s | s | | s m e]; cbn;
    try destruct s; intros H; try reflexivity; discriminate H.
Qed.

Lemma update_rate_defined realtime :
  exists rate, update_rate realtime = Some rate.
Proof.
  unfold update_rate. destruct (SFltb d_zero realtime) eqn:Hpos; [| eauto].
  destruct realtime as [s | s | | s m e]; cbn in Hpos; try discriminate Hpos;
    cbn [checked_div]; eauto.
Qed.

Lemma GUPs_defined realtime TableSize :
  exists gups, GUPs realtime TableSize = Some gups.
Proof.
  unfold GUPs. destruct (update_rate_defined realtime) as [rate ->].
  cbn [mbind option_bind]. eauto.
Qed.

(** ** The whole run *)

Lemma benchmark_total k logTableSize (block : list Z) t_begin t_end :
  7 <= k <= 63 -> length block = Z.to_nat (2 ^ k) ->
  exists gups,
    GUPs (d_sub t_end t_begin) (2 ^ k) = Some gups /\
    benchmark logTableSize (2 ^ k) block t_begin t_end =
    Some (Report logTableSize (2 ^ k) (NUPDATE (2 ^ k))
            (d_sub t_end t_begin) gups 0 "passed").
Proof.
  intros Hk Hblock.
  assert (Hpow : 0 < 2 ^ k < 2 ^ 64).
  { split; [apply Z.pow_pos_nonneg | apply Z.pow_lt_mono_r]; lia. }
  assert (Hlen : Z.of_nat (length (identity_table (2 ^ k))) = 2 ^ k)
    by (rewrite length_identity_table; lia).
  destruct (GUPs_defined (d_sub t_end t_begin) (2 ^ k)) as [gups Hgups].
  exists gups. split; [exact Hgups |].
  destruct (replay_restores k (identity_table (2 ^ k)) Hk Hlen)
    as (updated & Hupd & Hlen' & Hreplay).
  unfold benchmark.
  rewrite init_table_total by exact Hblock. cbn [mbind option_bind].
  rewrite Hupd. cbn [mbind option_bind].
  rewrite Hgups. cbn [mbind option_bind].
  rewrite Hreplay. cbn [mbind option_bind].
  rewrite (count_errors_mismatches (2 ^ k)) by (exact Hlen || lia).
  cbn [mbind option_bind].
  unfold mismatches, identity_table. rewrite mismatches_from_identity.
  change (Z.of_nat 0) with 0. unfold verdict.
  rewrite within_tolerance_zero by lia. reflexivity.
Qed.

Lemma main_sized_exits k logTableSize contents t_begin t_end :
  7 <= k <= 63 ->
  exists out,
    main_sized (Some (logTableSize, 2 ^ k)) (Some contents) t_begin t_end =
    Exited 0 out /\
    out_TableSize out = 2 ^ k /\ out_errors out = 0 /\
    out_verdict out = "passed"%string.
Proof.
  intros Hk. unfold main_sized.
  destruct (benchmark_total k logTableSize
              (map contents (seq 0 (Z.to_nat (2 ^ k)))) t_begin t_end Hk)
    as (gups & _ & ->).
  - rewrite length_map, length_seq. reflexivity.
  - eexists. split; [reflexivity |]. cbn [out_TableSize out_errors out_verdict].
    auto.
Qed.

Lemma identity_table_lookup TableSize i :
  0 <= i < TableSize -> identity_table TableSize !! Z.to_nat i = Some i.
Proof.
  intros Hi. unfold identity_table.
  change (map Z.of_nat (seq 0 (Z.to_nat TableSize)))
    with (Z.of_nat <$> seq 0 (Z.to_nat TableSize)).
  rewrite list_lookup_fmap, lookup_seq_lt by lia.
  cbn [fmap option_fmap option_map Nat.add]. f_equal. lia.
Qed.

(** * The specified properties *)

(** C1: for every power-of-two table size of at least 128 words and every
    initial table, [RandomAccessUpdate] with its 128 interleaved streams
    completes and leaves exactly the table that the scalar single-stream
    loop (state 1, [NUPDATE] transition-then-XOR steps) leaves. *)
Theorem RandomAccessUpdate_equals_scalar k (Table : list Z) :
  7 <= k <= 63 -> Z.of_nat (length Table) = 2 ^ k ->
  exists final,
    RandomAccessUpdate (2 ^ k) Table = Some final /\
    scalar_update (2 ^ k) Table = Some final.
Proof.
  intros Hk Hlen. eexists. split.
  - apply RandomAccessUpdate_updates; assumption.
  - apply scalar_update_total; [apply pow2_word; lia | assumption].
Qed.

Lemma RandomAccessUpdate_equals_scalar_witness :
  (7 <= 7 <= 63 /\ Z.of_nat (length (identity_table 128)) = 2 ^ 7) /\
  exists final,
    RandomAccessUpdate (2 ^ 7) (identity_table 128) = Some final /\
    scalar_update (2 ^ 7) (identity_table 128) = Some final.
Proof.
  split; [split; [lia | reflexivity] |].
  apply (RandomAccessUpdate_equals_scalar 7 (identity_table 128));
    [lia | reflexivity].
Defined.

(** C2: for every [n] in [0, 10000], [HPCC_starts n] is bit for bit the
    state reached by [n] applications of the scalar transition rule to
    state 1. *)
Theorem HPCC_starts_brute_force n :
  0 <= n <= 10000 -> HPCC_starts n = Nat.iter (Z.to_nat n) next_ran 1.
Proof. intros Hn. apply HPCC_starts_ran_seq. lia. Qed.

Lemma HPCC_starts_brute_force_witness :
  0 <= 1000 <= 10000 /\
  HPCC_starts 1000 = Nat.iter (Z.to_nat 1000) next_ran 1.
Proof. split; [lia | apply (HPCC_starts_brute_force 1000); lia]. Defined.

(** C3: for every power-of-two table size of at least 128 words, starting
    from [Table[i] = i], [RandomAccessUpdate] followed by the single-stream
    verification replay restores [Table[i] = i] at every index: the error
    count is exactly 0 and the verdict is "passed". *)
Theorem verification_finds_no_error k :
  7 <= k <= 63 ->
  exists updated verified,
    RandomAccessUpdate (2 ^ k) (identity_table (2 ^ k)) = Some updated /\
    scalar_update (2 ^ k) updated = Some verified /\
    (forall i, 0 <= i < 2 ^ k -> verified !! Z.to_nat i = Some i) /\
    count_errors (2 ^ k) verified = Some 0 /\
    verdict 0 (2 ^ k) = "passed"%string.
Proof.
  intros Hk.
  assert (Hpow : 0 < 2 ^ k < 2 ^ 64).
  { split; [apply Z.pow_pos_nonneg | apply Z.pow_lt_mono_r]; lia. }
  assert (Hlen : Z.of_nat (length (identity_table (2 ^ k))) = 2 ^ k)
    by (rewrite length_identity_table; lia).
  destruct (replay_restores k (identity_table (2 ^ k)) Hk Hlen)
    as (updated & Hupd & _ & Hreplay).
  exists updated, (identity_table (2 ^ k)).
  split; [exact Hupd |]. split; [exact Hreplay |].
  split; [intros i Hi; apply identity_table_lookup; exact Hi |]. split.
  - rewrite (count_errors_mismatches (2 ^ k)) by (exact Hlen || lia).
    unfold mismatches, identity_table. rewrite mismatches_from_identity.
    reflexivity.
  - unfold verdict. rewrite within_tolerance_zero by lia. reflexivity.
Qed.

Lemma verification_finds_no_error_witness :
  7 <= 7 <= 63 /\
  exists updated verified,
    RandomAccessUpdate (2 ^ 7) (identity_table (2 ^ 7)) = Some updated /\
    scalar_update (2 ^ 7) updated = Some verified /\
    (forall i, 0 <= i < 2 ^ 7 -> verified !! Z.to_nat i = Some i) /\
    count_errors (2 ^ 7) verified = Some 0 /\
    verdict 0 (2 ^ 7) = "passed"%string.
Proof. split; [lia | apply (verification_finds_no_error 7); lia]. Defined.

(** C4, as the code has it: the sizing loop of [main] stops, for every
    fuel of at least 30 tests, with [logTableSize = 29] and
    [TableSize = 2^29], the largest power of two that is at most the word
    count of the whole nominal budget, [2^32 / 8]; this is twice the
    largest power of two within half the budget. *)
Theorem table_size_is_2_29 (fuel : nat) :
  (30 <= fuel)%nat ->
  table_size fuel = Some (29, 2 ^ 29) /\
  2 ^ 29 <= Z.shiftl 1 32 / 8 < 2 ^ (29 + 1) /\
  2 ^ 29 = 2 * 2 ^ 28 /\ 2 ^ 28 <= Z.shiftl 1 32 / 2 / 8 < 2 ^ (28 + 1).
Proof.
  intros Hfuel. split; [apply table_size_fuel; exact Hfuel |].
  repeat split; try reflexivity; apply Z.leb_le; reflexivity.
Qed.

Lemma table_size_is_2_29_witness :
  (30 <= 1025)%nat /\
  table_size 1025 = Some (29, 2 ^ 29) /\
  2 ^ 29 <= Z.shiftl 1 32 / 8 < 2 ^ (29 + 1) /\
  2 ^ 29 = 2 * 2 ^ 28 /\ 2 ^ 28 <= Z.shiftl 1 32 / 2 / 8 < 2 ^ (28 + 1).
Proof. split; [lia | apply (table_size_is_2_29 1025); lia]. Defined.

(** C4 as stated fails: the table [main] sizes has not [2^28] words, and
    it does not fit in half of the budget. *)
Lemma table_size_is_not_2_28 :
  table_size 1025 <> Some (28, 2 ^ 28) /\
  exists logTableSize TableSize,
    table_size 1025 = Some (logTableSize, TableSize) /\
    Z.shiftl 1 32 / 2 / 8 < TableSize.
Proof.
  assert (H : table_size 1025 = Some (29, 2 ^ 29))
    by (apply table_size_fuel; lia).
  rewrite H. split; [intros Heq; inversion Heq |].
  exists 29, (2 ^ 29). split; reflexivity.
Qed.

(** C5, as the code has it: when the elapsed time is zero or negative no
    division is performed and the rate [1 / realtime] is replaced by the
    sentinel [-1.0]; the reported GUPs is that sentinel times
    [1e-9 * NUPDATE], which for the [2^29]-word table of [main] is
    [-4835703278458517 * 2^-51], about [-2.147483648]. *)
Theorem GUPs_of_no_elapsed_time realtime TableSize :
  SFleb realtime d_zero = true ->
  update_rate realtime = Some d_minus_one /\
  GUPs realtime TableSize =
    Some (d_mul d_minus_one
            (d_mul d_billionth (double_of_u64 (NUPDATE TableSize)))) /\
  GUPs realtime (2 ^ 29) = Some (S754_finite true 4835703278458517 (-51)).
Proof.
  intros Hle. apply not_positive in Hle.
  assert (Hrate : update_rate realtime = Some d_minus_one)
    by (unfold update_rate; rewrite Hle; reflexivity).
  split; [exact Hrate |]. unfold GUPs. rewrite Hrate.
  split; [reflexivity |]. vm_compute. reflexivity.
Qed.

Lemma GUPs_of_no_elapsed_time_witness :
  SFleb d_zero d_zero = true /\
  update_rate d_zero = Some d_minus_one /\
  GUPs d_zero (2 ^ 29) =
    Some (d_mul d_minus_one
            (d_mul d_billionth (double_of_u64 (NUPDATE (2 ^ 29))))) /\
  GUPs d_zero (2 ^ 29) = Some (S754_finite true 4835703278458517 (-51)).
Proof.
  split; [reflexivity |].
  apply (GUPs_of_no_elapsed_time d_zero (2 ^ 29)). reflexivity.
Defined.

(** C5 as stated fails: with no elapsed time the reported GUPs of [main]
    is not [-1.0]. *)
Lemma GUPs_is_not_minus_one : GUPs d_zero (2 ^ 29) <> Some d_minus_one.
Proof. vm_compute. intros H. inversion H. Qed.

(** C6: the count after the replay is the number of positions [i] with
    [Table[i] <> i], and the verdict is "passed" exactly when that count is
    at most 0.01 times [TableSize], "failed" otherwise (for every table of
    [2^k] words with [k <= 52], the [2^29] words of [main] among them). *)
Theorem verdict_is_one_percent k (Table : list Z) :
  0 <= k <= 52 -> Z.of_nat (length Table) = 2 ^ k ->
  count_errors (2 ^ k) Table = Some (Z.of_nat (mismatches Table)) /\
  (verdict (Z.of_nat (mismatches Table)) (2 ^ k) = "passed"%string <->
   100 * Z.of_nat (mismatches Table) <= 2 ^ k) /\
  (verdict (Z.of_nat (mismatches Table)) (2 ^ k) = "failed"%string <->
   2 ^ k < 100 * Z.of_nat (mismatches Table)).
Proof.
  intros Hk Hlen.
  assert (Hpow : 2 ^ k < 2 ^ 64) by (apply Z.pow_lt_mono_r; lia).
  split; [apply count_errors_mismatches; [exact Hlen | lia] |].
  pose proof (mismatches_from_le Table 0) as Hle. fold (mismatches Table) in Hle.
  unfold verdict. rewrite within_tolerance_spec by lia.
  destruct (Z.leb_spec (100 * Z.of_nat (mismatches Table)) (2 ^ k));
    split; split; intros Hv; try reflexivity; try discriminate Hv; lia.
Qed.

Lemma verdict_is_one_percent_witness :
  (0 <= 3 <= 52 /\ Z.of_nat (length [0; 1; 5; 3; 4; 5; 6; 7]) = 2 ^ 3) /\
  count_errors (2 ^ 3) [0; 1; 5; 3; 4; 5; 6; 7] =
    Some (Z.of_nat (mismatches [0; 1; 5; 3; 4; 5; 6; 7])) /\
  (verdict (Z.of_nat (mismatches [0; 1; 5; 3; 4; 5; 6; 7])) (2 ^ 3) =
     "passed"%string <->
   100 * Z.of_nat (mismatches [0; 1; 5; 3; 4; 5; 6; 7]) <= 2 ^ 3) /\
  (verdict (Z.of_nat (mismatches [0; 1; 5; 3; 4; 5; 6; 7])) (2 ^ 3) =
     "failed"%string <->
   2 ^ 3 < 100 * Z.of_nat (mismatches [0; 1; 5; 3; 4; 5; 6; 7])).
Proof.
  split; [split; [lia | reflexivity] |].
  apply (verdict_is_one_percent 3 [0; 1; 5; 3; 4; 5; 6; 7]);
    [lia | reflexivity].
Defined.

(** C7: [HPCC_starts 0 = 1], [HPCC_starts PERIOD = HPCC_starts 0], and
    [HPCC_starts (n + PERIOD) = HPCC_starts n] for every [n] such that [n]
    and [n + PERIOD] are 64-bit signed integers. *)
Theorem HPCC_starts_periodic n :
  - 2 ^ 63 <= n -> n + PERIOD <= 2 ^ 63 - 1 ->
  HPCC_starts 0 = 1 /\
  HPCC_starts PERIOD = HPCC_starts 0 /\
  HPCC_starts (n + PERIOD) = HPCC_starts n.
Proof.
  intros Hlo Hhi.
  assert (H0 : HPCC_starts 0 = 1) by (vm_compute; reflexivity).
  assert (HP : HPCC_starts PERIOD = HPCC_starts 0) by (vm_compute; reflexivity).
  split; [exact H0 |]. split; [exact HP |].
  assert (Hperiod : 0 < PERIOD) by (unfold PERIOD; lia).
  destruct (Z.lt_trichotomy n 0) as [Hneg | [-> | Hpos]].
  - apply HPCC_starts_normal. rewrite (add_period_eq n).
    destruct (Z.ltb_spec n 0); [reflexivity | lia].
  - exact HP.
  - apply HPCC_starts_normal.
    rewrite (add_period_eq (n + PERIOD)), (add_period_eq n).
    destruct (Z.ltb_spec (n + PERIOD) 0); [lia |].
    destruct (Z.ltb_spec n 0); [lia |].
    rewrite (sub_period_eq (n + PERIOD)).
    destruct (Z.ltb_spec PERIOD (n + PERIOD)); [| lia].
    f_equal. lia.
Qed.

Lemma HPCC_starts_periodic_witness :
  (- 2 ^ 63 <= -5 /\ -5 + PERIOD <= 2 ^ 63 - 1) /\
  HPCC_starts 0 = 1 /\
  HPCC_starts PERIOD = HPCC_starts 0 /\
  HPCC_starts (-5 + PERIOD) = HPCC_starts (-5).
Proof.
  split; [unfold PERIOD; lia |].
  apply (HPCC_starts_periodic (-5)); unfold PERIOD; lia.
Defined.

(** C8: for every 64-bit value [v] and every table size that is a power
    of two, the masked index [v & (TableSize - 1)] is [v mod TableSize]. *)
Theorem table_index_is_modulo v k :
  0 <= v < 2 ^ 64 -> 0 <= k <= 63 ->
  table_index (2 ^ k) v = v mod 2 ^ k.
Proof. intros _ Hk. apply table_index_mod. exact Hk. Qed.

Lemma table_index_is_modulo_witness :
  (0 <= 12345678901234567 < 2 ^ 64 /\ 0 <= 10 <= 63) /\
  table_index (2 ^ 10) 12345678901234567 = 12345678901234567 mod 2 ^ 10.
Proof.
  split; [lia |]. apply (table_index_is_modulo 12345678901234567 10); lia.
Defined.

(** C9: none of the first [10^6] iterates of the transition rule from
    state 1 is the all-zero word. *)
Theorem ran_seq_never_zero k :
  0 <= k <= 1000000 -> Nat.iter (Z.to_nat k) next_ran 1 <> 0.
Proof. intros _. apply ran_seq_nonzero. Qed.

Lemma ran_seq_never_zero_witness :
  0 <= 1000 <= 1000000 /\ Nat.iter (Z.to_nat 1000) next_ran 1 <> 0.
Proof. split; [lia | apply (ran_seq_never_zero 1000); lia]. Defined.

(** C10: whenever the allocation succeeds [main] returns 0; and for every
    table size a run of [main] that completes returns 0, whatever the
    verdict of the verification. *)
Theorem main_returns_zero :
  (forall contents t_begin t_end,
     exists out, main (Some contents) t_begin t_end = Exited 0 out) /\
  (forall sizes contents t_begin t_end,
     main_sized sizes (Some contents) t_begin t_end = Undefined \/
     exists out,
       main_sized sizes (Some contents) t_begin t_end = Exited 0 out).
Proof.
  split.
  - intros contents t_begin t_end. unfold main.
    rewrite (table_size_fuel 1025) by lia.
    destruct (main_sized_exits 29 29 contents t_begin t_end ltac:(lia))
      as (out & Hout & _).
    exists out. exact Hout.
  - intros sizes contents t_begin t_end. unfold main_sized.
    destruct sizes as [[logTableSize TableSize] |]; [| left; reflexivity].
    destruct (benchmark _ _ _ _ _) as [out |]; [right | left; reflexivity].
    exists out. reflexivity.
Qed.

(** * Further properties of the generator *)

Lemma add_period_mod (c : nat) : forall n,
  n < 0 -> - n <= Z.of_nat c * PERIOD -> add_period n = n mod PERIOD.
Proof.
  assert (HP : 0 < PERIOD) by (unfold PERIOD; lia).
  induction c as [| c IH]; intros n Hneg Hc; [lia |].
  rewrite add_period_eq. destruct (Z.ltb_spec n 0); [| lia].
  destruct (Z.lt_ge_cases (n + PERIOD) 0) as [Hlt | Hge].
  - rewrite IH by lia.
    replace (n + PERIOD) with (n + 1 * PERIOD) by lia.
    apply Z_mod_plus_full.
  - rewrite add_period_eq. destruct (Z.ltb_spec (n + PERIOD) 0); [lia |].
    apply (Z.mod_unique n PERIOD (-1)); lia.
Qed.

Lemma add_period_negative n : n < 0 -> add_period n = n mod PERIOD.
Proof.
  intros Hneg. assert (HP : 0 < PERIOD) by (unfold PERIOD; lia).
  apply (add_period_mod (Z.to_nat (- n / PERIOD + 1))); [exact Hneg |].
  pose proof (Z.div_pos (- n) PERIOD ltac:(lia) HP).
  pose proof (Z.mod_pos_bound (- n) PERIOD HP).
  pose proof (Z.div_mod (- n) PERIOD ltac:(lia)).
  rewrite Z2Nat.id by lia. lia.
Qed.

Lemma HPCC_starts_mod n :
  HPCC_starts n = ran_seq (Z.to_nat (n mod PERIOD)).
Proof.
  assert (HP : 0 < PERIOD) by (unfold PERIOD; lia).
  pose proof (Z.mod_pos_bound n PERIOD HP) as Hr.
  destruct (Z.lt_ge_cases n 0) as [Hneg | Hpos].
  - rewrite (HPCC_starts_normal n (n mod PERIOD)).
    + apply HPCC_starts_ran_seq. lia.
    + rewrite add_period_negative by exact Hneg.
      rewrite (add_period_eq (n mod PERIOD)).
      destruct (Z.ltb_spec (n mod PERIOD) 0); [lia | reflexivity].
  - rewrite HPCC_starts_ran_seq by exact Hpos.
    pose proof (Z.div_pos n PERIOD Hpos HP) as Hq.
    rewrite <- (ran_seq_add_periods (Z.to_nat (n / PERIOD))
                  (Z.to_nat (n mod PERIOD))).
    f_equal. apply Nat2Z.inj.
    rewrite Nat2Z.inj_add, Nat2Z.inj_mul, !Z2Nat.id by lia.
    pose proof (Z.div_mod n PERIOD ltac:(lia)). lia.
Qed.

Lemma u64_iter_next_ran n v : u64 v -> u64 (Nat.iter n next_ran v).
Proof.
  intros Hv. destruct n as [| n]; [exact Hv |].
  rewrite Nat.iter_succ. apply u64_next_ran.
Qed.

Lemma iter_next_ran_linear n : xor_linear (Nat.iter n next_ran).
Proof.
  induction n as [| n IH]; intros a b Ha Hb; [reflexivity |].
  rewrite !Nat.iter_succ, IH by assumption.
  apply next_ran_linear; apply u64_iter_next_ran; assumption.
Qed.

Lemma ran_seq_basis (j : nat) : (j < 64)%nat -> ran_seq j = 2 ^ Z.of_nat j.
Proof.
  intros Hj.
  assert (Hall : forallb (fun j : nat => ran_seq j =? 2 ^ Z.of_nat j)
                         (seq 0 64) = true) by (vm_compute; reflexivity).
  rewrite forallb_forall in Hall. apply Z.eqb_eq, Hall, in_seq. lia.
Qed.

Lemma iter_period v :
  u64 v -> Nat.iter (Z.to_nat PERIOD) next_ran v = v.
Proof.
  apply (xor_linear_ext (Nat.iter (Z.to_nat PERIOD) next_ran) (fun v => v)).
  - apply iter_next_ran_linear.
  - intros a b _ _. reflexivity.
  - intros j Hj. rewrite <- (ran_seq_basis j Hj), <- ran_seq_add.
    rewrite Nat.add_comm.
    rewrite <- (Nat.mul_1_l (Z.to_nat PERIOD)) at 1.
    apply ran_seq_add_periods.
Qed.

Lemma next_ran_injective a b :
  u64 a -> u64 b -> next_ran a = next_ran b -> a = b.
Proof.
  intros Ha Hb Heq. apply Z.lxor_eq.
  destruct (Z.eq_dec (Z.lxor a b) 0) as [H0 | Hne]; [exact H0 |].
  exfalso. apply (next_ran_nonzero (Z.lxor a b)).
  - apply u64_lxor; assumption.
  - exact Hne.
  - rewrite next_ran_linear, Heq by assumption. apply Z.lxor_nilpotent.
Qed.

(** X1: for every non-negative 64-bit signed [n], [HPCC_starts n] is the
    state after [n] transitions from state 1. *)
Theorem HPCC_starts_jump_ahead n :
  0 <= n <= 2 ^ 63 - 1 -> HPCC_starts n = Nat.iter (Z.to_nat n) next_ran 1.
Proof. intros Hn. apply HPCC_starts_ran_seq. lia. Qed.

Lemma HPCC_starts_jump_ahead_witness :
  0 <= 123456 <= 2 ^ 63 - 1 /\
  HPCC_starts 123456 = Nat.iter (Z.to_nat 123456) next_ran 1.
Proof. split; [lia | apply (HPCC_starts_jump_ahead 123456); lia]. Defined.

(** X2: for every argument, negative ones included, [HPCC_starts n] is the
    state after [n mod PERIOD] transitions from state 1: a negative offset
    counts back from the period. *)
Theorem HPCC_starts_any_offset n :
  HPCC_starts n = Nat.iter (Z.to_nat (n mod PERIOD)) next_ran 1.
Proof. apply HPCC_starts_mod. Qed.

(** X3: [HPCC_starts] never returns the all-zero state, and its result is
    a 64-bit word. *)
Theorem HPCC_starts_nonzero_word n : 0 < HPCC_starts n < 2 ^ 64.
Proof.
  rewrite HPCC_starts_mod.
  pose proof (u64_ran_seq (Z.to_nat (n mod PERIOD))) as Hu.
  pose proof (ran_seq_nonzero (Z.to_nat (n mod PERIOD))) as Hnz.
  unfold u64 in Hu. lia.
Qed.

(** X4: jumping ahead composes with stepping: the state [a] transitions
    after [HPCC_starts b] is [HPCC_starts (a + b)]. *)
Theorem HPCC_starts_then_steps a b :
  0 <= a -> 0 <= b -> a + b <= 2 ^ 63 - 1 ->
  Nat.iter (Z.to_nat a) next_ran (HPCC_starts b) = HPCC_starts (a + b).
Proof.
  intros Ha Hb _.
  rewrite !HPCC_starts_ran_seq by lia.
  rewrite Z2Nat.inj_add by lia. symmetry. apply ran_seq_add.
Qed.

Lemma HPCC_starts_then_steps_witness :
  (0 <= 16 /\ 0 <= 4096 /\ 16 + 4096 <= 2 ^ 63 - 1) /\
  Nat.iter (Z.to_nat 16) next_ran (HPCC_starts 4096) = HPCC_starts (16 + 4096).
Proof.
  split; [lia |]. apply (HPCC_starts_then_steps 16 4096); lia.
Defined.

(** X5: [PERIOD] is a period of the transition on every 64-bit state:
    [PERIOD] transitions bring any word back to itself. *)
Theorem PERIOD_is_a_period v :
  0 <= v < 2 ^ 64 -> Nat.iter (Z.to_nat PERIOD) next_ran v = v.
Proof. intros Hv. apply iter_period. exact Hv. Qed.

Lemma PERIOD_is_a_period_witness :
  0 <= 81985529216486895 < 2 ^ 64 /\
  Nat.iter (Z.to_nat PERIOD) next_ran 81985529216486895 = 81985529216486895.
Proof.
  split; [lia | apply (PERIOD_is_a_period 81985529216486895); lia].
Defined.

(** X6: the transition is an injective map of 64-bit words that commutes
    with exclusive or. *)
Theorem next_ran_linear_injective a b :
  0 <= a < 2 ^ 64 -> 0 <= b < 2 ^ 64 ->
  0 <= next_ran a < 2 ^ 64 /\
  next_ran (Z.lxor a b) = Z.lxor (next_ran a) (next_ran b) /\
  (next_ran a = next_ran b -> a = b).
Proof.
  intros Ha Hb. split; [apply u64_next_ran |].
  split; [apply next_ran_linear; assumption |].
  apply next_ran_injective; assumption.
Qed.

Lemma next_ran_linear_injective_witness :
  (0 <= 2 ^ 63 + 5 < 2 ^ 64 /\ 0 <= 77 < 2 ^ 64) /\
  0 <= next_ran (2 ^ 63 + 5) < 2 ^ 64 /\
  next_ran (Z.lxor (2 ^ 63 + 5) 77) =
    Z.lxor (next_ran (2 ^ 63 + 5)) (next_ran 77) /\
  (next_ran (2 ^ 63 + 5) = next_ran 77 -> 2 ^ 63 + 5 = 77).
Proof.
  split; [lia |]. apply (next_ran_linear_injective (2 ^ 63 + 5) 77); lia.
Defined.

(** X7: one product with the matrix [m2] of [HPCC_starts] doubles the
    number of transitions: it maps the state after [e] transitions to the
    state after [2 e]. *)
Theorem mat_vec_doubles (e : nat) :
  mat_vec (fill_m2 64 1) (Nat.iter e next_ran 1) =
  Nat.iter (2 * e) next_ran 1.
Proof. apply mat_vec_ran_seq. Qed.

(** * Further properties of the table updater *)

Lemma xor_update_cases TableSize Table ran :
  xor_update TableSize Table ran =
  if decide (Z.to_nat (table_index TableSize ran) < length Table)%nat
  then Some (xor_at TableSize Table ran) else None.
Proof.
  unfold xor_update, xor_at.
  set (i := Z.to_nat (table_index TableSize ran)).
  destruct (decide (i < length Table)%nat) as [Hi | Hi].
  - destruct (Table !! i) as [old |] eqn:Hold.
    + cbn. f_equal. apply list_eq. intros j.
      rewrite list_lookup_alter.
      destruct (decide (i = j)) as [<- | Hne].
      * rewrite list_lookup_insert_eq, Hold by assumption. reflexivity.
      * rewrite list_lookup_insert_ne by assumption. reflexivity.
    + apply lookup_lt_is_Some in Hi. rewrite Hold in Hi.
      destruct Hi as [? Hi]. discriminate Hi.
  - rewrite (lookup_ge_None_2 Table i) by lia. reflexivity.
Qed.

Lemma scalar_steps_total TableSize (n : nat) Table :
  0 < TableSize < 2 ^ 64 -> Z.of_nat (length Table) = TableSize ->
  scalar_steps n TableSize Table =
  Some (apply_updates TableSize (scalar_updates n) Table).
Proof.
  intros HT Hlen. unfold scalar_steps.
  rewrite scalar_loop_total by assumption. reflexivity.
Qed.

Lemma NUPDATE_no_wrap TableSize :
  0 <= TableSize <= 2 ^ 61 -> NUPDATE TableSize = 4 * TableSize.
Proof.
  intros HT. unfold NUPDATE, wrap64. apply Z.mod_small. lia.
Qed.

Lemma NUPDATE_zero_rounds TableSize Table :
  NUPDATE TableSize / 128 = 0 ->
  RandomAccessUpdate TableSize Table = Some Table.
Proof. intros H0. unfold RandomAccessUpdate. rewrite H0. reflexivity. Qed.

(** X8: for every table size from 1 word on, a power of two or not, an
    update stays inside a table of that many words; it keeps the length of
    the table, XORs the value into the word at the masked index and leaves
    every other word as it was. *)
Theorem xor_update_in_bounds TableSize (Table : list Z) ran :
  0 < TableSize < 2 ^ 64 -> Z.of_nat (length Table) = TableSize ->
  exists updated,
    xor_update TableSize Table ran = Some updated /\
    length updated = length Table /\
    updated !! Z.to_nat (table_index TableSize ran) =
      (fun old => Z.lxor old ran)
        <$> Table !! Z.to_nat (table_index TableSize ran) /\
    forall j, j <> Z.to_nat (table_index TableSize ran) ->
              updated !! j = Table !! j.
Proof.
  intros HT Hlen. exists (xor_at TableSize Table ran).
  split; [apply xor_update_total; assumption |].
  split; [apply length_xor_at |]. unfold xor_at. split.
  - rewrite list_lookup_alter.
    destruct (decide (Z.to_nat (table_index TableSize ran) =
                      Z.to_nat (table_index TableSize ran))); [reflexivity |].
    congruence.
  - intros j Hj. apply list_lookup_alter_ne. congruence.
Qed.

Lemma xor_update_in_bounds_witness :
  (0 < 6 < 2 ^ 64 /\ Z.of_nat (length [10; 11; 12; 13; 14; 15]) = 6) /\
  exists updated,
    xor_update 6 [10; 11; 12; 13; 14; 15] 1023 = Some updated /\
    length updated = length [10; 11; 12; 13; 14; 15] /\
    updated !! Z.to_nat (table_index 6 1023) =
      (fun old => Z.lxor old 1023)
        <$> [10; 11; 12; 13; 14; 15] !! Z.to_nat (table_index 6 1023) /\
    forall j, j <> Z.to_nat (table_index 6 1023) ->
              updated !! j = [10; 11; 12; 13; 14; 15] !! j.
Proof.
  split; [split; [lia | reflexivity] |].
  apply (xor_update_in_bounds 6 [10; 11; 12; 13; 14; 15] 1023);
    [lia | reflexivity].
Defined.

(** X9: two updates give the same result in either order, for every table
    and table size, also when one of them falls outside the table. *)
Theorem xor_update_commutes TableSize (Table : list Z) a b :
  (updated ← xor_update TableSize Table a; xor_update TableSize updated b) =
  (updated ← xor_update TableSize Table b; xor_update TableSize updated a).
Proof.
  rewrite (xor_update_cases TableSize Table a),
          (xor_update_cases TableSize Table b).
  destruct (decide (Z.to_nat (table_index TableSize a) < length Table)%nat)
    as [Ha | Ha],
    (decide (Z.to_nat (table_index TableSize b) < length Table)%nat)
    as [Hb | Hb]; cbn [mbind option_bind]; rewrite ?xor_update_cases,
      ?length_xor_at.
  - destruct (decide (Z.to_nat (table_index TableSize b) < length Table)%nat);
      [| contradiction].
    destruct (decide (Z.to_nat (table_index TableSize a) < length Table)%nat);
      [| contradiction].
    rewrite xor_at_comm. reflexivity.
  - destruct (decide (Z.to_nat (table_index TableSize b) < length Table)%nat);
      [contradiction | reflexivity].
  - destruct (decide (Z.to_nat (table_index TableSize a) < length Table)%nat);
      [contradiction | reflexivity].
  - reflexivity.
Qed.

(** X10: an update that succeeds is undone by the same update. *)
Theorem xor_update_twice TableSize (Table updated : list Z) ran :
  xor_update TableSize Table ran = Some updated ->
  xor_update TableSize updated ran = Some Table.
Proof.
  rewrite (xor_update_cases TableSize Table ran).
  destruct (decide (Z.to_nat (table_index TableSize ran) < length Table)%nat)
    as [Hi | Hi]; [| discriminate].
  intros [= <-]. rewrite xor_update_cases, length_xor_at.
  destruct (decide (Z.to_nat (table_index TableSize ran) < length Table)%nat);
    [| contradiction].
  rewrite xor_at_twice. reflexivity.
Qed.

Lemma xor_update_twice_witness :
  xor_update 4 [5; 6; 7; 8] 4099 = Some [5; 6; 7; 4107] /\
  xor_update 4 [5; 6; 7; 4107] 4099 = Some [5; 6; 7; 8].
Proof.
  split; [reflexivity |].
  apply (xor_update_twice 4 [5; 6; 7; 8] [5; 6; 7; 4107] 4099). reflexivity.
Defined.

(** X11: for every table of 1 to [2^61] words, a power of two or not,
    [RandomAccessUpdate] completes and leaves the table that the scalar
    loop leaves after its first [128 * (NUPDATE / 128)] rounds: the
    [NUPDATE mod 128] last updates of the scalar sequence are left out. *)
Theorem RandomAccessUpdate_is_scalar_prefix TableSize (Table : list Z) :
  0 < TableSize <= 2 ^ 61 -> Z.of_nat (length Table) = TableSize ->
  exists final,
    RandomAccessUpdate TableSize Table = Some final /\
    scalar_steps (128 * Z.to_nat (NUPDATE TableSize / 128)) TableSize Table =
    Some final.
Proof.
  intros HT Hlen. eexists. split.
  - apply RandomAccessUpdate_rounds; [lia | exact Hlen |].
    rewrite NUPDATE_no_wrap by lia. lia.
  - apply scalar_steps_total; [lia | exact Hlen].
Qed.

Lemma RandomAccessUpdate_is_scalar_prefix_witness :
  (0 < 48 <= 2 ^ 61 /\ Z.of_nat (length (identity_table 48)) = 48) /\
  exists final,
    RandomAccessUpdate 48 (identity_table 48) = Some final /\
    scalar_steps (128 * Z.to_nat (NUPDATE 48 / 128)) 48 (identity_table 48) =
    Some final.
Proof.
  split; [split; [lia | reflexivity] |].
  apply (RandomAccessUpdate_is_scalar_prefix 48 (identity_table 48));
    [lia | reflexivity].
Defined.

(** X12: when the table size is a multiple of 32 words (up to [2^61]), a
    power of two or not, the 128 streams leave exactly the table of the
    whole scalar loop. *)
Theorem RandomAccessUpdate_multiple_of_32 TableSize (Table : list Z) :
  0 < TableSize <= 2 ^ 61 -> TableSize mod 32 = 0 ->
  Z.of_nat (length Table) = TableSize ->
  exists final,
    RandomAccessUpdate TableSize Table = Some final /\
    scalar_update TableSize Table = Some final.
Proof.
  intros HT Hmod Hlen.
  assert (HN : NUPDATE TableSize = 4 * TableSize)
    by (apply NUPDATE_no_wrap; lia).
  assert (Hdiv : NUPDATE TableSize / 128 = TableSize / 32).
  { rewrite HN. pose proof (Z.div_mod TableSize 32 ltac:(lia)) as H32.
    rewrite Hmod, Z.add_0_r in H32.
    symmetry. apply (Z.div_unique _ 128 _ 0); lia. }
  eexists. split.
  - apply RandomAccessUpdate_rounds; [lia | exact Hlen | lia].
  - rewrite scalar_update_total by (lia || exact Hlen).
    do 3 f_equal. rewrite Hdiv, HN.
    pose proof (Z.div_mod TableSize 32 ltac:(lia)) as H32.
    pose proof (Z.div_pos TableSize 32 ltac:(lia) ltac:(lia)). lia.
Qed.

Lemma RandomAccessUpdate_multiple_of_32_witness :
  (0 < 96 <= 2 ^ 61 /\ 96 mod 32 = 0 /\
   Z.of_nat (length (identity_table 96)) = 96) /\
  exists final,
    RandomAccessUpdate 96 (identity_table 96) = Some final /\
    scalar_update 96 (identity_table 96) = Some final.
Proof.
  split; [split; [lia | split; reflexivity] |].
  apply (RandomAccessUpdate_multiple_of_32 96 (identity_table 96));
    [lia | reflexivity | reflexivity].
Defined.

(** X13: on a table of fewer than 32 words [NUPDATE / 128] is 0 and
    [RandomAccessUpdate] changes nothing. *)
Theorem RandomAccessUpdate_small_table TableSize (Table : list Z) :
  0 <= TableSize < 32 -> RandomAccessUpdate TableSize Table = Some Table.
Proof.
  intros HT. apply NUPDATE_zero_rounds.
  rewrite NUPDATE_no_wrap by lia. apply Z.div_small. lia.
Qed.

Lemma RandomAccessUpdate_small_table_witness :
  0 <= 16 < 32 /\
  RandomAccessUpdate 16 (identity_table 16) = Some (identity_table 16).
Proof.
  split; [lia |].
  apply (RandomAccessUpdate_small_table 16 (identity_table 16)). lia.
Defined.

(** X14: when [4 * TableSize] overflows to 0 in 64 bits (a table size that
    is a multiple of [2^62]), neither [RandomAccessUpdate] nor the scalar
    loop performs any update. *)
Theorem NUPDATE_overflow_no_update TableSize (Table : list Z) :
  0 <= TableSize < 2 ^ 64 -> TableSize mod 2 ^ 62 = 0 ->
  NUPDATE TableSize = 0 /\
  RandomAccessUpdate TableSize Table = Some Table /\
  scalar_update TableSize Table = Some Table.
Proof.
  intros HT Hmod.
  assert (HN : NUPDATE TableSize = 0).
  { unfold NUPDATE, wrap64.
    pose proof (Z.div_mod TableSize (2 ^ 62) ltac:(lia)) as Hq.
    rewrite Hmod, Z.add_0_r in Hq.
    replace (4 * TableSize) with (TableSize / 2 ^ 62 * 2 ^ 64) by lia.
    apply Z.mod_mul. lia. }
  split; [exact HN |]. split.
  - apply NUPDATE_zero_rounds. rewrite HN. reflexivity.
  - unfold scalar_update. rewrite HN. reflexivity.
Qed.

Lemma NUPDATE_overflow_no_update_witness :
  (0 <= 2 ^ 63 < 2 ^ 64 /\ 2 ^ 63 mod 2 ^ 62 = 0) /\
  NUPDATE (2 ^ 63) = 0 /\
  RandomAccessUpdate (2 ^ 63) [1; 2; 3] = Some [1; 2; 3] /\
  scalar_update (2 ^ 63) [1; 2; 3] = Some [1; 2; 3].
Proof.
  split; [split; [lia | reflexivity] |].
  apply (NUPDATE_overflow_no_update (2 ^ 63) [1; 2; 3]); [lia | reflexivity].
Defined.

(** X15: for every table whose size is a multiple of 32 words (up to
    [2^61]) and whatever it holds, the verification replay undoes
    [RandomAccessUpdate] exactly. *)
Theorem replay_undoes_update TableSize (Table : list Z) :
  0 < TableSize <= 2 ^ 61 -> TableSize mod 32 = 0 ->
  Z.of_nat (length Table) = TableSize ->
  exists updated,
    RandomAccessUpdate TableSize Table = Some updated /\
    scalar_update TableSize updated = Some Table.
Proof.
  intros HT Hmod Hlen.
  assert (HN : NUPDATE TableSize = 4 * TableSize)
    by (apply NUPDATE_no_wrap; lia).
  assert (Hrounds : (128 * Z.to_nat (NUPDATE TableSize / 128))%nat =
                    Z.to_nat (NUPDATE TableSize)).
  { rewrite HN. pose proof (Z.div_mod TableSize 32 ltac:(lia)) as H32.
    rewrite Hmod, Z.add_0_r in H32.
    replace (4 * TableSize / 128) with (TableSize / 32)
      by (apply (Z.div_unique _ 128 _ 0); lia).
    pose proof (Z.div_pos TableSize 32 ltac:(lia) ltac:(lia)). lia. }
  eexists. split.
  - apply RandomAccessUpdate_rounds; [lia | exact Hlen | lia].
  - rewrite scalar_update_total
      by (lia || (rewrite length_apply_updates; exact Hlen)).
    rewrite Hrounds, <- apply_updates_app, apply_updates_twice. reflexivity.
Qed.

Lemma replay_undoes_update_witness :
  (0 < 64 <= 2 ^ 61 /\ 64 mod 32 = 0 /\
   Z.of_nat (length (replicate 64 12345)) = 64) /\
  exists updated,
    RandomAccessUpdate 64 (replicate 64 12345) = Some updated /\
    scalar_update 64 updated = Some (replicate 64 12345).
Proof.
  split; [split; [lia | split; reflexivity] |].
  apply (replay_undoes_update 64 (replicate 64 12345));
    [lia | reflexivity | reflexivity].
Defined.

(** * Further properties of the driver *)

Lemma for_loop_app {St : Type} (body : nat -> St -> option St) a : forall b first s,
  for_loop (a + b) first body s =
  s' ← for_loop a first body s; for_loop b (first + a) body s'.
Proof.
  induction a as [| a IH]; intros b first s.
  - cbn [for_loop Nat.add mbind option_bind]. rewrite Nat.add_0_r. reflexivity.
  - cbn [for_loop Nat.add]. destruct (body first s) as [s1 |];
      cbn [mbind option_bind]; [| reflexivity].
    rewrite IH. replace (S first + a)%nat with (first + S a)%nat by lia.
    reflexivity.
Qed.

Lemma init_loop_rest (suf rest : list Z) : forall pre,
  for_loop (length suf) (length pre)
    (fun i Table => store Table i (Z.of_nat i)) (pre ++ suf ++ rest) =
  Some (pre ++ map Z.of_nat (seq (length pre) (length suf)) ++ rest).
Proof.
  induction suf as [| w suf IH]; intros pre; [reflexivity |].
  cbn [for_loop length app]. rewrite store_middle. cbn [mbind option_bind].
  replace (S (length pre)) with (length (pre ++ [Z.of_nat (length pre)]))
    by (rewrite length_app; cbn [length]; lia).
  replace (pre ++ Z.of_nat (length pre) :: suf ++ rest)
    with ((pre ++ [Z.of_nat (length pre)]) ++ suf ++ rest)
    by (rewrite <- app_assoc; reflexivity).
  rewrite IH, <- app_assoc. rewrite length_app. cbn [length seq map app].
  rewrite Nat.add_1_r. reflexivity.
Qed.

Lemma store_outside (Table : list Z) v :
  store Table (length Table) v = None.
Proof.
  unfold store. destruct (decide (length Table < length Table)%nat); [lia |].
  reflexivity.
Qed.

Lemma mismatches_from_zero Table : forall i,
  mismatches_from i Table = 0%nat <->
  Table = map Z.of_nat (seq i (length Table)).
Proof.
  induction Table as [| w Table IH]; intros i; [split; reflexivity |].
  cbn [mismatches_from length seq map]. specialize (IH (S i)).
  destruct (Z.eqb_spec w (Z.of_nat i)) as [-> | Hne]; split.
  - intros H. f_equal. apply IH. lia.
  - intros [= H]. cbn [Nat.add]. apply IH. exact H.
  - intros H. lia.
  - intros [= H _]. contradiction.
Qed.

Lemma d_sub_self t : d_is_finite t = true -> d_sub t t = d_zero.
Proof.
  destruct t as [s | s | | s m e]; cbn [d_is_finite]; try discriminate;
    intros _.
  - destruct s; reflexivity.
  - unfold d_sub, SFsub. rewrite Z.sub_diag. reflexivity.
Qed.

Lemma NUPDATE_main : NUPDATE (2 ^ 29) = 2 ^ 31.
Proof. reflexivity. Qed.

(** X16: on a block of at least [TableSize] words the initialisation sets
    word [i] to [i] for every [i < TableSize] and touches nothing else. *)
Theorem init_table_sets_identity TableSize (block rest : list Z) :
  length block = Z.to_nat TableSize ->
  init_table TableSize (block ++ rest) =
  Some (identity_table TableSize ++ rest).
Proof.
  intros Hlen. unfold init_table, identity_table. rewrite <- Hlen.
  apply (init_loop_rest block rest []).
Qed.

Lemma init_table_sets_identity_witness :
  length [9; 9; 9; 9] = Z.to_nat 4 /\
  init_table 4 ([9; 9; 9; 9] ++ [7; 7]) = Some (identity_table 4 ++ [7; 7]).
Proof.
  split; [reflexivity |].
  apply (init_table_sets_identity 4 [9; 9; 9; 9] [7; 7]). reflexivity.
Defined.

(** X17: on a block of fewer than [TableSize] words the initialisation
    writes outside the block. *)
Theorem init_table_short_block TableSize (block : list Z) :
  (length block < Z.to_nat TableSize)%nat ->
  init_table TableSize block = None.
Proof.
  intros Hlen. unfold init_table.
  replace (Z.to_nat TableSize)
    with (length block + S (Z.to_nat TableSize - S (length block)))%nat by lia.
  rewrite for_loop_app.
  pose proof (init_loop block []) as Hloop. cbn [length app] in Hloop.
  rewrite Hloop. cbn [mbind option_bind for_loop Nat.add].
  replace (length block)
    with (length (map Z.of_nat (seq 0 (length block)))) at 2
    by (rewrite length_map, length_seq; reflexivity).
  rewrite store_outside. reflexivity.
Qed.

Lemma init_table_short_block_witness :
  (length [1; 2] < Z.to_nat 4)%nat /\ init_table 4 [1; 2] = None.
Proof.
  split; [cbn; lia |]. apply (init_table_short_block 4 [1; 2]). cbn. lia.
Defined.

(** X18: on a table of [TableSize] words the error count is defined, lies
    between 0 and [TableSize], and is 0 exactly when every word equals its
    index. *)
Theorem count_errors_zero_iff_identity TableSize (Table : list Z) :
  Z.of_nat (length Table) = TableSize -> TableSize < 2 ^ 64 ->
  exists errors,
    count_errors TableSize Table = Some errors /\
    0 <= errors <= TableSize /\
    (errors = 0 <-> Table = identity_table TableSize).
Proof.
  intros Hlen Hlt. exists (Z.of_nat (mismatches Table)).
  split; [apply count_errors_mismatches; assumption |].
  pose proof (mismatches_from_le Table 0) as Hle.
  fold (mismatches Table) in Hle. split; [lia |].
  unfold identity_table. replace (Z.to_nat TableSize) with (length Table) by lia.
  rewrite <- (mismatches_from_zero Table 0). unfold mismatches. lia.
Qed.

Lemma count_errors_zero_iff_identity_witness :
  (Z.of_nat (length [0; 1; 7; 3]) = 4 /\ 4 < 2 ^ 64) /\
  exists errors,
    count_errors 4 [0; 1; 7; 3] = Some errors /\
    0 <= errors <= 4 /\
    (errors = 0 <-> [0; 1; 7; 3] = identity_table 4).
Proof.
  split; [split; [reflexivity | lia] |].
  apply (count_errors_zero_iff_identity 4 [0; 1; 7; 3]); [reflexivity | lia].
Defined.

(** X19: on a table of fewer than [TableSize] words the error-counting
    loop reads outside the table. *)
Theorem count_errors_short_table TableSize (Table : list Z) :
  (length Table < Z.to_nat TableSize)%nat -> Z.of_nat (length Table) < 2 ^ 64 ->
  count_errors TableSize Table = None.
Proof.
  intros Hlen Hlt. unfold count_errors.
  replace (Z.to_nat TableSize)
    with (length Table + S (Z.to_nat TableSize - S (length Table)))%nat by lia.
  rewrite for_loop_app.
  pose proof (count_loop Table Table [] 0 eq_refl ltac:(lia) ltac:(lia))
    as Hloop.
  cbn [length] in Hloop. rewrite Hloop.
  cbn [mbind option_bind for_loop Nat.add]. unfold count_step.
  rewrite (lookup_ge_None_2 Table (length Table)) by lia. reflexivity.
Qed.

Lemma count_errors_short_table_witness :
  ((length [0; 1] < Z.to_nat 4)%nat /\ Z.of_nat (length [0; 1]) < 2 ^ 64) /\
  count_errors 4 [0; 1] = None.
Proof.
  split; [split; cbn; lia |].
  apply (count_errors_short_table 4 [0; 1]); cbn; lia.
Defined.

(** X20: the rate is computed without a division by zero for every elapsed
    time, zeros, infinities and NaN included. *)
Theorem GUPs_never_divides_by_zero realtime TableSize :
  exists gups, GUPs realtime TableSize = Some gups.
Proof. apply GUPs_defined. Qed.



Lemma main_exits_with contents t_begin t_end :
  exists gups,
    GUPs (d_sub t_end t_begin) (2 ^ 29) = Some gups /\
    main (Some contents) t_begin t_end =
    Exited 0 (Report 29 (2 ^ 29) (2 ^ 31) (d_sub t_end t_begin) gups 0
                "passed").
Proof.
  unfold main. rewrite (table_size_fuel 1025) by lia. unfold main_sized.
  destruct (benchmark_total 29 29
              (map contents (seq 0 (Z.to_nat (2 ^ 29)))) t_begin t_end
              ltac:(lia)) as (gups & Hgups & ->).
  - rewrite length_map, length_seq. reflexivity.
  - exists gups. split; [exact Hgups |]. rewrite NUPDATE_main. reflexivity.
Qed.

(** X22: whenever the allocation succeeds, and whatever the fresh block
    holds, [main] returns 0 after reporting a table of [2^29] words,
    [2^31] updates, the difference of the two clock readings, 0 errors and
    the verdict "passed". *)
Theorem main_report contents t_begin t_end :
  exists gups,
    GUPs (d_sub t_end t_begin) (2 ^ 29) = Some gups /\
    main (Some contents) t_begin t_end =
    Exited 0 (Report 29 (2 ^ 29) (2 ^ 31) (d_sub t_end t_begin) gups 0
                "passed").
Proof. apply main_exits_with. Qed.

(** X23: [main] is aborted by its assertion exactly when the allocation
    fails. *)
Theorem main_aborts_iff_no_memory Table t_begin t_end :
  main Table t_begin t_end = Aborted <-> Table = None.
Proof.
  destruct Table as [contents |]; split; intros H.
  - destruct (main_exits_with contents t_begin t_end) as (gups & _ & Hmain).
    rewrite Hmain in H. discriminate H.
  - discriminate H.
  - reflexivity.
  - unfold main. rewrite (table_size_fuel 1025) by lia. reflexivity.
Qed.

(** X24: when the two clock readings are the same finite value, [main]
    reports an elapsed time of 0 and the negative rate
    [-4835703278458517 * 2^-51], about [-2.147483648]. *)
Theorem main_with_no_elapsed_time contents t :
  d_is_finite t = true ->
  main (Some contents) t t =
  Exited 0 (Report 29 (2 ^ 29) (2 ^ 31) d_zero
              (S754_finite true 4835703278458517 (-51)) 0 "passed").
Proof.
  intros Ht.
  destruct (main_exits_with contents t t) as (gups & Hgups & ->).
  rewrite d_sub_self in * by exact Ht.
  assert (Hval : GUPs d_zero (2 ^ 29) =
                 Some (S754_finite true 4835703278458517 (-51)))
    by (vm_compute; reflexivity).
  rewrite Hval in Hgups. injection Hgups as <-. reflexivity.
Qed.

Lemma main_with_no_elapsed_time_witness :
  d_is_finite d_one = true /\
  main (Some (fun _ => 0)) d_one d_one =
  Exited 0 (Report 29 (2 ^ 29) (2 ^ 31) d_zero
              (S754_finite true 4835703278458517 (-51)) 0 "passed").
Proof.
  split; [reflexivity |].
  apply (main_with_no_elapsed_time (fun _ => 0) d_one). reflexivity.
Defined.
